(** * WAVM: LEB128 serialization, JIT image memory manager and address lookup

    A shallow embedding of
    - [src/Include/Core/Serialization.h]: the memory input stream, the array
      output stream and the LEB128 codec [serializeVarInt] with its helpers;
    - [src/Lib/LLVMJIT/LLVMJITLoad.cpp]: [ModuleMemoryManager]
      ([reserveAllocationSpace], [allocateBytes]), the global
      address-to-module index and [getJITFunctionByAddress].

    Machine integers are [Z] values with their wrap-around written out;
    bytes are [Z] values in [0, 256). *)

From Stdlib Require Import String Ascii ZArith List Bool Lia Btauto.
From coqutil Require Import Z.bitblast.
Import ListNotations.

Local Open Scope Z_scope.

(* ------------------------------------------------------------------ *)
(** ** C++ integer types *)

(** The [Value] types the codec is instantiated with: [U8], [U16], [U32],
    [U64] (also [size_t]/[uintp]) and the signed [I32], [I64]. *)
Inductive ctype := U8 | U16 | U32 | U64 | I32 | I64.

Definition is_signed (t : ctype) : bool :=
  match t with I32 | I64 => true | _ => false end.

Definition type_bits (t : ctype) : Z :=
  match t with
  | U8 => 8 | U16 => 16 | U32 => 32 | I32 => 32 | U64 => 64 | I64 => 64
  end.

(** Conversion of a mathematical integer to [Value]: reduction modulo
    2^w, read back as two's complement for the signed types. *)
Definition wrap (t : ctype) (x : Z) : Z :=
  let w := type_bits t in
  if is_signed t
  then (x + 2 ^ (w - 1)) mod 2 ^ w - 2 ^ (w - 1)
  else x mod 2 ^ w.

(** [Uptr] (64-bit unsigned) arithmetic. *)
Definition uptr (x : Z) : Z := x mod 2 ^ 64.

(** [(uint8)x]. *)
Definition u8 (x : Z) : Z := Z.land x 255.

(* ------------------------------------------------------------------ *)
(** ** Exceptions and [std::to_string] *)

Inductive exn :=
| EndOfStream                    (* "expected data but found end of stream" *)
| InvalidFinalByte               (* "Invalid LEB encoding: invalid final byte" *)
| OutOfRange (lo v hi : Z).      (* "out-of-range value: lo<=v<=hi" *)

Inductive result (A : Type) := Ok (a : A) | Err (e : exn).
Arguments Ok {A} a.
Arguments Err {A} e.

Definition digit_char (d : Z) : ascii := ascii_of_nat (48 + Z.to_nat d).

(** Decimal digits of a non-negative integer, prepended to [acc]. *)
Fixpoint utoa (fuel : nat) (n : Z) (acc : string) : string :=
  match fuel with
  | O => acc
  | S f =>
      let acc' := String (digit_char (n mod 10)) acc in
      if n <? 10 then acc' else utoa f (n / 10) acc'
  end.

(** [std::to_string] on an integer. *)
Definition to_string (z : Z) : string :=
  let fuel := S (Z.to_nat (Z.log2 (Z.abs z))) in
  if z <? 0 then String "-" (utoa fuel (- z) EmptyString)
  else utoa fuel z EmptyString.

(** The [message] member of the thrown [FatalSerializationException]. *)
Definition message (e : exn) : string :=
  match e with
  | EndOfStream => "expected data but found end of stream"
  | InvalidFinalByte => "Invalid LEB encoding: invalid final byte"
  | OutOfRange lo v hi =>
      "out-of-range value: " ++ to_string lo ++ "<=" ++ to_string v
        ++ "<=" ++ to_string hi
  end%string.

(* ------------------------------------------------------------------ *)
(** ** Streams *)

(** A [MemoryInputStream] over the bytes [buf]; [next] is the index of the
    cursor, [end] is [length buf]. *)
Record istream := { buf : list Z; next : nat }.

(** [InputStream::advance]: on a short read [getMoreData] throws before the
    cursor moves; otherwise the old cursor is returned and moved. *)
Definition advance (s : istream) (numBytes : nat) : result nat * istream :=
  if (length (buf s) <? next s + numBytes)%nat
  then (Err EndOfStream, s)
  else (Ok (next s), {| buf := buf s; next := next s + numBytes |}).

(** [InputStream::peek]. *)
Definition peek (s : istream) (numBytes : nat) : result nat * istream :=
  if (length (buf s) <? next s + numBytes)%nat
  then (Err EndOfStream, s)
  else (Ok (next s), s).

(** An [ArrayOutputStream] is the list of bytes written so far; [advance(1)]
    followed by a store appends one byte. *)
Definition ostream := list Z.

(* ------------------------------------------------------------------ *)
(** ** LEB128 encoding (serializeVarInt on an OutputStream) *)

(** The loop condition [more] after [value >>= 7]. *)
Definition more_flag (signed : bool) (value outputByte : Z) : bool :=
  if signed
  then (negb (value =? 0) && negb (value =? -1))
       || ((0 <=? value) && negb (Z.land outputByte 64 =? 0))
       || ((value <? 0) && (Z.land outputByte 64 =? 0))
  else negb (value =? 0).

(** The [while(more)] loop.  [value] is a [Value], so [>>] is arithmetic for
    the signed types and logical for the (non-negative) unsigned ones; a
    shifted [Value] stays in range.  [fuel] bounds the iterations; the
    encoder below gives it [type_bits t] iterations, more than the loop can
    run (each iteration consumes 7 bits). *)
Fixpoint encode_loop (signed : bool) (fuel : nat) (value : Z) : list Z :=
  match fuel with
  | O => []
  | S f =>
      let outputByte := u8 (Z.land value 127) in
      let value' := Z.shiftr value 7 in
      let more := more_flag signed value' outputByte in
      let outputByte' := if more then u8 (Z.lor outputByte 128) else outputByte in
      outputByte' :: (if more then encode_loop signed f value' else [])
  end.

Definition serializeVarInt_out (t : ctype) (maxBits : Z) (stream : ostream)
    (inValue minValue maxValue : Z) : result unit * ostream :=
  let value := inValue in
  if (value <? minValue) || (maxValue <? value)
  then (Err (OutOfRange minValue value maxValue), stream)
  else (Ok tt, stream ++ encode_loop (is_signed t) (Z.to_nat (type_bits t)) value).

(* ------------------------------------------------------------------ *)
(** ** LEB128 decoding (serializeVarInt on an InputStream) *)

Definition maxBytes (maxBits : Z) : Z := (maxBits + 6) / 7.

(** The first loop: read bytes until [maxBytes] have been read or one has a
    clear continuation bit.  Returns the bytes read. *)
Fixpoint read_bytes (fuel : nat) (s : istream) : result (list Z) * istream :=
  match fuel with
  | O => (Ok [], s)
  | S f =>
      match advance s 1 with
      | (Err e, s') => (Err e, s')
      | (Ok p, s') =>
          let byte := nth p (buf s') 0 in
          if Z.land byte 128 =? 0 then (Ok [byte], s')
          else match read_bytes f s' with
               | (Ok bs, s'') => (Ok (byte :: bs), s'')
               | (Err e, s'') => (Err e, s'')
               end
      end
  end.

Definition numUsedBitsInHighestByte (maxBits : Z) : Z :=
  maxBits - (maxBytes maxBits - 1) * 7.
Definition highestByteUsedBitmask (maxBits : Z) : Z :=
  u8 (Z.shiftl 1 (numUsedBitsInHighestByte maxBits)) - 1.
Definition highestByteSignedBitmask (maxBits : Z) : Z :=
  Z.land (Z.lnot (u8 (highestByteUsedBitmask maxBits))) (Z.lnot (u8 128)).

(** The final-byte test; [true] means the exception is thrown. *)
Definition invalid_final_byte (signed : bool) (maxBits lastByte : Z) : bool :=
  let hi := Z.land lastByte (Z.lnot (highestByteUsedBitmask maxBits)) in
  negb (hi =? 0)
  && (negb (hi =? u8 (highestByteSignedBitmask maxBits)) || negb signed).

(** The second loop: [value |= Value(bytes[byteIndex] & ~0x80) << (byteIndex*7)]. *)
Fixpoint assemble (t : ctype) (bytes : list Z) (byteIndex : Z) (value : Z) : Z :=
  match bytes with
  | [] => value
  | b :: bs =>
      assemble t bs (byteIndex + 1)
        (wrap t (Z.lor value (wrap t (Z.shiftl (wrap t (Z.land b (Z.lnot 128)))
                                                (byteIndex * 7)))))
  end.

(** Lines 172-201: read, validate the final byte, assemble and sign-extend. *)
Definition decodeLEB (t : ctype) (maxBits : Z) (s : istream) : result Z * istream :=
  let mB := Z.to_nat (maxBytes maxBits) in
  match read_bytes mB s with
  | (Err e, s') => (Err e, s')
  | (Ok read, s') =>
      let numBytes := Z.of_nat (length read) in
      let signExtendShift := type_bits t - 7 * numBytes in
      let bytes := read ++ repeat 0 (mB - length read) in
      if invalid_final_byte (is_signed t) maxBits (nth (mB - 1) bytes 0)
      then (Err InvalidFinalByte, s')
      else
        let value := assemble t bytes 0 0 in
        let value :=
          if is_signed t && (0 <? signExtendShift)
          then wrap t (Z.shiftr (wrap t (Z.shiftl value signExtendShift)) signExtendShift)
          else value in
        (Ok value, s')
  end.

Definition serializeVarInt_in (t : ctype) (maxBits : Z) (s : istream)
    (minValue maxValue : Z) : result Z * istream :=
  match decodeLEB t maxBits s with
  | (Err e, s') => (Err e, s')
  | (Ok value, s') =>
      if (value <? minValue) || (maxValue <? value)
      then (Err (OutOfRange minValue value maxValue), s')
      else (Ok value, s')
  end.

(** The helpers [serializeVarUInt1/7/32/64] and [serializeVarInt32/64]. *)
Inductive helper := VarUInt1 | VarUInt7 | VarUInt32 | VarUInt64 | VarInt32 | VarInt64.

Definition helper_bits (h : helper) : Z :=
  match h with
  | VarUInt1 => 1 | VarUInt7 => 7 | VarUInt32 | VarInt32 => 32
  | VarUInt64 | VarInt64 => 64
  end.

Definition helper_signed (h : helper) : bool :=
  match h with VarInt32 | VarInt64 => true | _ => false end.

Definition helper_min (h : helper) : Z :=
  match h with
  | VarInt32 => - 2 ^ 31 | VarInt64 => - 2 ^ 63 | _ => 0
  end.

Definition helper_max (h : helper) : Z :=
  match h with
  | VarUInt1 => 1 | VarUInt7 => 127 | VarUInt32 => 2 ^ 32 - 1
  | VarUInt64 => 2 ^ 64 - 1 | VarInt32 => 2 ^ 31 - 1 | VarInt64 => 2 ^ 63 - 1
  end.

(** The bounds are converted to [Value] at the call. *)
Definition serializeHelper_out (h : helper) (t : ctype) (s : ostream) (v : Z) :=
  serializeVarInt_out t (helper_bits h) s v (wrap t (helper_min h)) (wrap t (helper_max h)).

Definition serializeHelper_in (h : helper) (t : ctype) (s : istream) :=
  serializeVarInt_in t (helper_bits h) s (wrap t (helper_min h)) (wrap t (helper_max h)).

(* ------------------------------------------------------------------ *)
(** ** ModuleMemoryManager (LLVMJITLoad.cpp) *)

Module MM.

Record Section := { baseAddress : Z; numPages : Z; numCommittedBytes : Z }.

Record ModuleMemoryManager := {
  imageBaseAddress : Z;
  numAllocatedImagePages : Z;
  isFinalized : bool;
  codeSection : Section;
  readOnlySection : Section;
  readWriteSection : Section }.

(** The constructor: [imageBaseAddress(nullptr)], [isFinalized(false)], the
    sections zero-initialised.  [numAllocatedImagePages] is left
    uninitialised by the constructor and is assigned by
    [reserveAllocationSpace] before any use; it is 0 here. *)
Definition zeroSection : Section :=
  {| baseAddress := 0; numPages := 0; numCommittedBytes := 0 |}.

Definition construct : ModuleMemoryManager :=
  {| imageBaseAddress := 0; numAllocatedImagePages := 0; isFinalized := false;
     codeSection := zeroSection; readOnlySection := zeroSection;
     readWriteSection := zeroSection |}.

(** [static Uptr align(Uptr size, Uptr alignment)]. *)
Definition align (size alignment : Z) : Z :=
  Z.land (uptr (size + alignment - 1)) (uptr (Z.lnot (uptr (alignment - 1)))).

(** [static Uptr shrAndRoundUp(Uptr value, Uptr shift)]. *)
Definition shrAndRoundUp (value shift : Z) : Z :=
  Z.shiftr (uptr (value + uptr (Z.shiftl 1 shift) - 1)) shift.

Section WithPageSize.

(** [Platform::getPageSizeLog2()]. *)
Variable pageSizeLog2 : Z.

(** [allocateBytes]: returns the allocation's address and the updated
    section, or [None] for [Errors::fatal].  Pointer arithmetic on
    [U8*] is not wrapped.  The [wavmAssert]s (non-null base, power-of-two
    alignment, not finalized) are debug checks and are not modelled. *)
Definition allocateBytes (numBytes alignment : Z) (section : Section)
    : option (Z * Section) :=
  let allocationBaseAddress :=
    baseAddress section + align (numCommittedBytes section) alignment in
  let committed :=
    uptr (align (numCommittedBytes section) alignment + align numBytes alignment) in
  let section' := {| baseAddress := baseAddress section;
                     numPages := numPages section;
                     numCommittedBytes := committed |} in
  if uptr (Z.shiftl (numPages section) pageSizeLog2) <? committed
  then None
  else Some (allocationBaseAddress, section').

Definition allocateCodeSection (mm : ModuleMemoryManager) (numBytes alignment : Z)
    : option (Z * ModuleMemoryManager) :=
  match allocateBytes numBytes alignment (codeSection mm) with
  | None => None
  | Some (p, s) =>
      Some (p, {| imageBaseAddress := imageBaseAddress mm;
                  numAllocatedImagePages := numAllocatedImagePages mm;
                  isFinalized := isFinalized mm; codeSection := s;
                  readOnlySection := readOnlySection mm;
                  readWriteSection := readWriteSection mm |})
  end.

Definition allocateDataSection (mm : ModuleMemoryManager) (numBytes alignment : Z)
    (isReadOnly : bool) : option (Z * ModuleMemoryManager) :=
  if isReadOnly
  then match allocateBytes numBytes alignment (readOnlySection mm) with
       | None => None
       | Some (p, s) =>
           Some (p, {| imageBaseAddress := imageBaseAddress mm;
                       numAllocatedImagePages := numAllocatedImagePages mm;
                       isFinalized := isFinalized mm; codeSection := codeSection mm;
                       readOnlySection := s;
                       readWriteSection := readWriteSection mm |})
       end
  else match allocateBytes numBytes alignment (readWriteSection mm) with
       | None => None
       | Some (p, s) =>
           Some (p, {| imageBaseAddress := imageBaseAddress mm;
                       numAllocatedImagePages := numAllocatedImagePages mm;
                       isFinalized := isFinalized mm; codeSection := codeSection mm;
                       readOnlySection := readOnlySection mm;
                       readWriteSection := s |})
       end.

(** Calls [reserveAllocationSpace] makes to the platform layer. *)
Inductive platform_call :=
| AllocateVirtualPages (numPages : Z)
| CommitVirtualPages (base numPages : Z).

(** The platform layer: [USE_WINDOWS_SEH], [Platform::allocateVirtualPages]
    (0 is [nullptr]) and [Platform::commitVirtualPages], of any behaviour. *)
Variable USE_WINDOWS_SEH : bool.
Variable allocateVirtualPages : Z -> Z.
Variable commitVirtualPages : Z -> Z -> bool.

Definition withPages (s : Section) (n : Z) : Section :=
  {| baseAddress := baseAddress s; numPages := n; numCommittedBytes := numCommittedBytes s |}.
Definition withBase (s : Section) (b : Z) : Section :=
  {| baseAddress := b; numPages := numPages s; numCommittedBytes := numCommittedBytes s |}.

(** [reserveAllocationSpace]: the platform calls made, and the new state or
    [None] for [Errors::fatal].  The alignments are unused by the source. *)
Definition reserveAllocationSpace (mm : ModuleMemoryManager)
    (numCodeBytes codeAlignment numReadOnlyBytes readOnlyAlignment
     numReadWriteBytes readWriteAlignment : Z)
    : list platform_call * option ModuleMemoryManager :=
  let numCodeBytes := if USE_WINDOWS_SEH then uptr (numCodeBytes + 32) else numCodeBytes in
  let codePages := shrAndRoundUp numCodeBytes pageSizeLog2 in
  let readOnlyPages := shrAndRoundUp numReadOnlyBytes pageSizeLog2 in
  let readWritePages := shrAndRoundUp numReadWriteBytes pageSizeLog2 in
  let total := uptr (codePages + readOnlyPages + readWritePages) in
  let code := withPages (codeSection mm) codePages in
  let ro := withPages (readOnlySection mm) readOnlyPages in
  let rw := withPages (readWriteSection mm) readWritePages in
  let mk image c r w :=
    {| imageBaseAddress := image; numAllocatedImagePages := total;
       isFinalized := isFinalized mm; codeSection := c;
       readOnlySection := r; readWriteSection := w |} in
  if total =? 0 then ([], Some (mk (imageBaseAddress mm) code ro rw))
  else
    let image := allocateVirtualPages total in
    if image =? 0 then ([AllocateVirtualPages total], None)
    else if negb (commitVirtualPages image total)
    then ([AllocateVirtualPages total; CommitVirtualPages image total], None)
    else
      let codeBase := image in
      let roBase := codeBase + uptr (Z.shiftl codePages pageSizeLog2) in
      let rwBase := roBase + uptr (Z.shiftl readOnlyPages pageSizeLog2) in
      ([AllocateVirtualPages total; CommitVirtualPages image total],
       Some (mk image (withBase code codeBase) (withBase ro roBase) (withBase rw rwBase))).

End WithPageSize.

End MM.

(* ------------------------------------------------------------------ *)
(** ** Address lookup (LLVMJITLoad.cpp) *)

Module JIT.

Record JITFunction := { baseAddress : Z; numBytes : Z }.

(** A [LoadedModule]: its image ([memoryManager->getImageBaseAddress()] and
    [getNumImageBytes()]) and its [addressToFunctionMap]. *)
Record LoadedModule := {
  imageBaseAddress : Z;
  numImageBytes : Z;
  addressToFunctionMap : list (Z * JITFunction) }.

(** A [std::map] is a list of entries in increasing key order;
    [upper_bound] is its first entry with a key greater than [a]. *)
Fixpoint upper_bound {A} (m : list (Z * A)) (a : Z) : option (Z * A) :=
  match m with
  | [] => None
  | (k, x) :: r => if a <? k then Some (k, x) else upper_bound r a
  end.

(** [addressToModuleMap]. *)
Definition index := list (Z * LoadedModule).

Definition getJITFunctionByAddress (addressToModuleMap : index) (address : Z)
    : option JITFunction :=
  match upper_bound addressToModuleMap address with
  | None => None
  | Some (_, jitModule) =>
      match upper_bound (addressToFunctionMap jitModule) address with
      | None => None
      | Some (_, function) =>
          if (baseAddress function <=? address)
             && (address <? uptr (baseAddress function + numBytes function))
          then Some function else None
      end
  end.

(** The state the loader builds: every function entry keyed by
    [baseAddress + numBytes], non-empty, inside its module's image, the
    functions of a module pairwise disjoint (in key order), every module
    keyed by its image end, the images pairwise disjoint (in key order), all
    addresses below 2^64. *)
Definition func_ok (m : LoadedModule) (e : Z * JITFunction) : bool :=
  let '(k, f) := e in
  (k =? baseAddress f + numBytes f) && (0 <? numBytes f)
  && (imageBaseAddress m <=? baseAddress f)
  && (baseAddress f + numBytes f <=? imageBaseAddress m + numImageBytes m).

Fixpoint disjoint_chain {A} (start : A -> Z) (m : list (Z * A)) : bool :=
  match m with
  | [] => true
  | (k, _) :: r => forallb (fun e => k <=? start (snd e)) r && disjoint_chain start r
  end.

Definition module_ok (e : Z * LoadedModule) : bool :=
  let '(k, m) := e in
  (k =? imageBaseAddress m + numImageBytes m) && (0 <=? imageBaseAddress m)
  && (k <? 2 ^ 64)
  && forallb (func_ok m) (addressToFunctionMap m)
  && disjoint_chain baseAddress (addressToFunctionMap m).

Definition wf (idx : index) : bool :=
  forallb module_ok idx && disjoint_chain imageBaseAddress idx.

(** A function is loaded when it is in the function map of a module of the
    index. *)
Definition loaded (idx : index) (f : JITFunction) : Prop :=
  exists k m k', In (k, m) idx /\ In (k', f) (addressToFunctionMap m).

(** Accesses to [addressToModuleMap] and its mutex, in program order. *)
Inductive index_event := LockIndex | UnlockIndex | IndexEmplace | IndexFindErase | IndexUpperBound.

(** [LoadedModule::LoadedModule]: [addressToModuleMap.emplace(...)] at the end. *)
Definition loadedModule_ctor_events : list index_event := [IndexEmplace].
(** [LoadedModule::~LoadedModule]: the [Lock] lives to the end of the body. *)
Definition loadedModule_dtor_events : list index_event := [LockIndex; IndexFindErase; UnlockIndex].
(** [getJITFunctionByAddress]: the [Lock] lives in the inner block, on both exits. *)
Definition getJITFunctionByAddress_events : list index_event :=
  [LockIndex; IndexUpperBound; UnlockIndex].

(** Every access to the index happens while the mutex is held. *)
Fixpoint guarded (held : bool) (es : list index_event) : bool :=
  match es with
  | [] => true
  | LockIndex :: r => negb held && guarded true r
  | UnlockIndex :: r => held && guarded false r
  | _ :: r => held && guarded held r
  end.

End JIT.

(* ------------------------------------------------------------------ *)
(** ** ArrayOutputStream (Serialization.h) *)

Module AOS.

(** The [bytes] vector and the cursor [next], as an index into it; [end] is
    [bytes.data() + bytes.size()]. *)
Record ArrayOutputStream := { bytes : list Z; next : nat }.

(** A default-constructed stream: [next] and [end] are [nullptr] and the
    vector is empty. *)
Definition init : ArrayOutputStream := {| bytes := []; next := 0 |}.

(** [std::vector<uint8>::resize]: truncates, or extends with zero bytes. *)
Definition resize (l : list Z) (n : nat) : list Z :=
  firstn n l ++ repeat 0 (n - length l).

(** [extendBuffer]: [std::max((size_t)nextIndex+numBytes, bytes.size() * 7 / 5 + 32)]
    in [size_t] arithmetic. *)
Definition extendBuffer (s : ArrayOutputStream) (numBytes : nat) : ArrayOutputStream :=
  let nextIndex := next s in
  let newSize :=
    Z.max (uptr (Z.of_nat nextIndex + Z.of_nat numBytes))
          (uptr (uptr (Z.of_nat (length (bytes s)) * 7) / 5 + 32)) in
  {| bytes := resize (bytes s) (Z.to_nat newSize); next := nextIndex |}.

(** [OutputStream::advance]: extends the buffer when [next + numBytes > end],
    then returns the old cursor and moves it. *)
Definition advance (s : ArrayOutputStream) (numBytes : nat) : nat * ArrayOutputStream :=
  let s := if (length (bytes s) <? next s + numBytes)%nat then extendBuffer s numBytes else s in
  (next s, {| bytes := bytes s; next := next s + numBytes |}).

(** [memcpy] of [src] into [l] at index [p]. *)
Definition store (l : list Z) (p : nat) (src : list Z) : list Z :=
  firstn p l ++ src ++ skipn (p + length src) l.

(** [serializeBytes(OutputStream&, bytes, numBytes)]. *)
Definition serializeBytes (s : ArrayOutputStream) (src : list Z) : ArrayOutputStream :=
  let '(p, s') := advance s (length src) in
  {| bytes := store (bytes s') p src; next := next s' |}.

(** [*stream.advance(1) = outputByte]. *)
Definition writeByte (s : ArrayOutputStream) (outputByte : Z) : ArrayOutputStream :=
  let '(p, s') := advance s 1 in
  {| bytes := store (bytes s') p [outputByte]; next := next s' |}.

(** [getBytes]: the vector resized to the cursor, moved out; the stream is
    left with null pointers and the moved-from (empty) vector. *)
Definition getBytes (s : ArrayOutputStream) : list Z * ArrayOutputStream :=
  (resize (bytes s) (next s), init).

(** [serializeVarInt] on an [ArrayOutputStream]: the range check, then one
    [advance(1)] and store per encoded byte. *)
Definition serializeVarInt (t : ctype) (maxBits : Z) (s : ArrayOutputStream)
    (inValue minValue maxValue : Z) : result unit * ArrayOutputStream :=
  let value := inValue in
  if (value <? minValue) || (maxValue <? value)
  then (Err (OutOfRange minValue value maxValue), s)
  else (Ok tt, fold_left writeByte (encode_loop (is_signed t) (Z.to_nat (type_bits t)) value) s).

End AOS.

(* ------------------------------------------------------------------ *)
(** ** Raw bytes, native values, constants, strings and arrays
       (Serialization.h) *)

(** [serializeBytes(InputStream&, bytes, numBytes)]: [memcpy] from
    [stream.advance(numBytes)]. *)
Definition serializeBytes_in (s : istream) (numBytes : nat) : result (list Z) * istream :=
  match advance s numBytes with
  | (Err e, s') => (Err e, s')
  | (Ok p, s') => (Ok (firstn numBytes (skipn p (buf s))), s')
  end.

(** [serializeBytes(OutputStream&, bytes, numBytes)] on the list model of
    the output stream. *)
Definition serializeBytes_out (s : ostream) (bytes : list Z) : ostream := s ++ bytes.

(** The integer types with a [serialize] overload ([float32]/[float64]
    are not modelled). *)
Inductive ntype := NU8 | NU32 | NU64 | NI8 | NI32 | NI64.

(** [sizeof(Value)]. *)
Definition nsize (t : ntype) : nat :=
  match t with NU8 | NI8 => 1 | NU32 | NI32 => 4 | NU64 | NI64 => 8 end%nat.

Definition nsigned (t : ntype) : bool :=
  match t with NI8 | NI32 | NI64 => true | _ => false end.

Definition nbits (t : ntype) : Z := 8 * Z.of_nat (nsize t).

(** Conversion to [Value], as [wrap]. *)
Definition nwrap (t : ntype) (x : Z) : Z :=
  let w := nbits t in
  if nsigned t then (x + 2 ^ (w - 1)) mod 2 ^ w - 2 ^ (w - 1) else x mod 2 ^ w.

(** The object representation of a value of [n] bytes on a little-endian
    host (x86-64, AArch64), two's complement: byte [i] is bits [8i..8i+7]. *)
Definition le_bytes (n : nat) (v : Z) : list Z :=
  map (fun i => Z.land (Z.shiftr v (8 * Z.of_nat i)) 255) (seq 0 n).

(** The unsigned value of a little-endian byte sequence. *)
Fixpoint le_value (l : list Z) : Z :=
  match l with [] => 0 | b :: r => b + 256 * le_value r end.

(** [serialize(OutputStream&, T&)] = [serializeNativeValue]: the [sizeof(T)]
    bytes of the value. *)
Definition serializeNative_out (s : ostream) (t : ntype) (v : Z) : ostream :=
  serializeBytes_out s (le_bytes (nsize t) v).

(** [serialize(InputStream&, T&)]: the value whose representation is the next
    [sizeof(T)] bytes. *)
Definition serializeNative_in (s : istream) (t : ntype) : result Z * istream :=
  match serializeBytes_in s (nsize t) with
  | (Err e, s') => (Err e, s')
  | (Ok bs, s') => (Ok (nwrap t (le_value bs)), s')
  end.

(** What [serializeConstant] on an input stream can throw: the exception of
    reading the value, or the mismatch it raises itself. *)
Inductive constant_error :=
| ConstantRead (e : exn)
| ConstantMismatch (constantMismatchMessage : string) (savedConstant constant : Z).

Definition constant_message (e : constant_error) : string :=
  match e with
  | ConstantRead e => message e
  | ConstantMismatch msg saved c =>
      msg ++ ": loaded " ++ to_string saved ++ " but was expecting " ++ to_string c
  end%string.

(** [serializeConstant(InputStream&, constantMismatchMessage, constant)]. *)
Definition serializeConstant_in (s : istream) (constantMismatchMessage : string)
    (t : ntype) (constant : Z) : option constant_error * istream :=
  match serializeNative_in s t with
  | (Err e, s') => (Some (ConstantRead e), s')
  | (Ok savedConstant, s') =>
      if negb (savedConstant =? constant)
      then (Some (ConstantMismatch constantMismatchMessage savedConstant constant), s')
      else (None, s')
  end.

(** [serializeConstant(OutputStream&, ...)]. *)
Definition serializeConstant_out (s : ostream) (constantMismatchMessage : string)
    (t : ntype) (constant : Z) : ostream :=
  serializeNative_out s t constant.

(** [serialize(Stream&, std::string&)]: the [size_t] size as a varuint32,
    then the characters (as bytes). *)
Definition serializeString_out (s : ostream) (str : list Z) : result unit * ostream :=
  match serializeHelper_out VarUInt32 U64 s (Z.of_nat (length str)) with
  | (Err e, s') => (Err e, s')
  | (Ok _, s') => (Ok tt, serializeBytes_out s' str)
  end.

Definition serializeString_in (s : istream) : result (list Z) * istream :=
  match serializeHelper_in VarUInt32 U64 s with
  | (Err e, s') => (Err e, s')
  | (Ok size, s') => serializeBytes_in s' (Z.to_nat size)
  end.

Section SerializeArray.

Context {Element : Type}.
(** The [serializeElement] functor, on each kind of stream. *)
Variable serializeElement_out : ostream -> Element -> result unit * ostream.
Variable serializeElement_in : istream -> result Element * istream.

(** The loop [for(index = 0; index < vector.size(); ++index)]. *)
Fixpoint serializeElements_out (s : ostream) (v : list Element) : result unit * ostream :=
  match v with
  | [] => (Ok tt, s)
  | x :: r =>
      match serializeElement_out s x with
      | (Err e, s') => (Err e, s')
      | (Ok _, s') => serializeElements_out s' r
      end
  end.

Fixpoint serializeElements_in (n : nat) (s : istream) : result (list Element) * istream :=
  match n with
  | O => (Ok [], s)
  | S n' =>
      match serializeElement_in s with
      | (Err e, s') => (Err e, s')
      | (Ok x, s') =>
          match serializeElements_in n' s' with
          | (Err e, s'') => (Err e, s'')
          | (Ok xs, s'') => (Ok (x :: xs), s'')
          end
      end
  end.

(** [serializeArray]: the [size_t] size as a varuint32, then the elements.
    On input the vector is resized to [size] and filled in index order. *)
Definition serializeArray_out (s : ostream) (v : list Element) : result unit * ostream :=
  match serializeHelper_out VarUInt32 U64 s (Z.of_nat (length v)) with
  | (Err e, s') => (Err e, s')
  | (Ok _, s') => serializeElements_out s' v
  end.

Definition serializeArray_in (s : istream) : result (list Element) * istream :=
  match serializeHelper_in VarUInt32 U64 s with
  | (Err e, s') => (Err e, s')
  | (Ok size, s') => serializeElements_in (Z.to_nat size) s'
  end.

End SerializeArray.

(* ------------------------------------------------------------------ *)
(** ** Finalization and EH frames of the ModuleMemoryManager
       (LLVMJITLoad.cpp) *)

Module FIN.

(** [Platform::MemoryAccess]. *)
Inductive MemoryAccess := execute | readOnly | readWrite.

Section WithPlatform.

(** [Platform::setVirtualPageAccess], of any behaviour. *)
Variable setVirtualPageAccess : Z -> Z -> MemoryAccess -> bool.

(** [if(section.numPages) { errorUnless(Platform::setVirtualPageAccess(...)); }]:
    the call made, if any, and whether it succeeded. *)
Definition protect (section : MM.Section) (access : MemoryAccess)
    : list (Z * Z * MemoryAccess) * bool :=
  if MM.numPages section =? 0 then ([], true)
  else ([(MM.baseAddress section, MM.numPages section, access)],
        setVirtualPageAccess (MM.baseAddress section) (MM.numPages section) access).

(** [reallyFinalizeMemory]: the calls made, and the new state or [None] for
    [errorUnless]'s fatal error. *)
Definition reallyFinalizeMemory (mm : MM.ModuleMemoryManager)
    : list (Z * Z * MemoryAccess) * option MM.ModuleMemoryManager :=
  let mm' := {| MM.imageBaseAddress := MM.imageBaseAddress mm;
                MM.numAllocatedImagePages := MM.numAllocatedImagePages mm;
                MM.isFinalized := true;
                MM.codeSection := MM.codeSection mm;
                MM.readOnlySection := MM.readOnlySection mm;
                MM.readWriteSection := MM.readWriteSection mm |} in
  let '(c1, ok1) := protect (MM.codeSection mm) execute in
  if negb ok1 then (c1, None) else
  let '(c2, ok2) := protect (MM.readOnlySection mm) readOnly in
  if negb ok2 then (c1 ++ c2, None) else
  let '(c3, ok3) := protect (MM.readWriteSection mm) readWrite in
  if negb ok3 then (c1 ++ c2 ++ c3, None) else (c1 ++ c2 ++ c3, Some mm').

End WithPlatform.

End FIN.

Module EH.

(** The EH-frame fields of [ModuleMemoryManager]. *)
Record EHState := {
  hasRegisteredEHFrames : bool;
  ehFramesAddr : Z;
  ehFramesNumBytes : Z }.

(** The constructor sets [hasRegisteredEHFrames(false)]; the other two
    fields are uninitialised and read only after a registration. *)
Definition init : EHState :=
  {| hasRegisteredEHFrames := false; ehFramesAddr := 0; ehFramesNumBytes := 0 |}.

(** Platform calls: [registerEHFrames], [deregisterEHFrames] and
    [decommitVirtualPages]. *)
Inductive platform_call :=
| RegisterEHFrames (imageBase addr numBytes : Z)
| DeregisterEHFrames (imageBase addr numBytes : Z)
| DecommitVirtualPages (base numPages : Z).

Definition registerEHFrames (USE_WINDOWS_SEH : bool) (imageBaseAddress : Z)
    (st : EHState) (addr numBytes : Z) : list platform_call * EHState :=
  if negb USE_WINDOWS_SEH
  then ([RegisterEHFrames imageBaseAddress addr numBytes],
        {| hasRegisteredEHFrames := true; ehFramesAddr := addr; ehFramesNumBytes := numBytes |})
  else ([], st).

Definition deregisterEHFrames (imageBaseAddress : Z) (st : EHState)
    : list platform_call * EHState :=
  if hasRegisteredEHFrames st
  then ([DeregisterEHFrames imageBaseAddress (ehFramesAddr st) (ehFramesNumBytes st)],
        {| hasRegisteredEHFrames := false; ehFramesAddr := ehFramesAddr st;
           ehFramesNumBytes := ehFramesNumBytes st |})
  else ([], st).

(** [~ModuleMemoryManager]: deregister, then decommit the image pages. *)
Definition destroy (imageBaseAddress numAllocatedImagePages : Z) (st : EHState)
    : list platform_call :=
  fst (deregisterEHFrames imageBaseAddress st)
  ++ [DecommitVirtualPages imageBaseAddress numAllocatedImagePages].

(** The calls the loader may make on the memory manager before it is
    destroyed. *)
Inductive op := OpRegister (addr numBytes : Z) | OpDeregister.

Fixpoint run (USE_WINDOWS_SEH : bool) (imageBaseAddress : Z) (st : EHState) (ops : list op)
    : list platform_call * EHState :=
  match ops with
  | [] => ([], st)
  | o :: r =>
      let '(c, st') :=
        match o with
        | OpRegister addr n => registerEHFrames USE_WINDOWS_SEH imageBaseAddress st addr n
        | OpDeregister => deregisterEHFrames imageBaseAddress st
        end in
      let '(c', st'') := run USE_WINDOWS_SEH imageBaseAddress st' r in
      (c ++ c', st'')
  end.

(** The platform calls are well paired: a registration is made only when
    none is pending, every deregistration is of the pending registration,
    nothing is registered when the pages are decommitted, and nothing is
    left registered at the end. *)
Fixpoint paired (pending : option (Z * Z)) (calls : list platform_call) : bool :=
  match calls with
  | [] => match pending with None => true | Some _ => false end
  | RegisterEHFrames _ a n :: r =>
      match pending with None => paired (Some (a, n)) r | Some _ => false end
  | DeregisterEHFrames _ a n :: r =>
      match pending with
      | Some (a', n') => (a =? a') && (n =? n') && paired None r
      | None => false
      end
  | DecommitVirtualPages _ _ :: r =>
      match pending with None => paired None r | Some _ => false end
  end.

(** The loader never registers EH frames again while a registration is
    pending ([registered] says whether one is). *)
Fixpoint single_registration (registered : bool) (ops : list op) : bool :=
  match ops with
  | [] => true
  | OpRegister _ _ :: r => negb registered && single_registration true r
  | OpDeregister :: r => single_registration false r
  end.

End EH.

(* ------------------------------------------------------------------ *)
(** ** Insertion into and removal from the address-to-module index
       (LLVMJITLoad.cpp) *)

Module IDX.

(** [std::map::emplace]: inserts at its place in key order, unless the key
    is present (then the map is unchanged). *)
Fixpoint emplace {A} (m : list (Z * A)) (k : Z) (v : A) : list (Z * A) :=
  match m with
  | [] => [(k, v)]
  | (k', v') :: r =>
      if k <? k' then (k, v) :: m
      else if k =? k' then m
      else (k', v') :: emplace r k v
  end.

(** [m.erase(m.find(k))]; [None] when [k] is absent ([erase(end())] is
    undefined). *)
Fixpoint erase_find {A} (m : list (Z * A)) (k : Z) : option (list (Z * A)) :=
  match m with
  | [] => None
  | (k', v') :: r =>
      if k =? k' then Some r else option_map (cons (k', v')) (erase_find r k)
  end.

(** End of [LoadedModule::LoadedModule]:
    [addressToModuleMap.emplace(imageBase + numImageBytes, this)]. *)
Definition loadModule (idx : JIT.index) (m : JIT.LoadedModule) : JIT.index :=
  emplace idx (JIT.imageBaseAddress m + JIT.numImageBytes m) m.

(** [LoadedModule::~LoadedModule]: [erase(find(imageBase + numImageBytes))]. *)
Definition unloadModule (idx : JIT.index) (m : JIT.LoadedModule) : option JIT.index :=
  erase_find idx (JIT.imageBaseAddress m + JIT.numImageBytes m).

End IDX.

(* ------------------------------------------------------------------ *)
(** ** [endsWith] (Programs/CLI.h) *)

Module CLI.

Definition NUL : ascii := Ascii.zero.

(** A C string: the characters up to the first NUL; past the end of the
    Rocq string the terminator is read. *)
Definition char_at (s : string) (i : nat) : ascii :=
  match String.get i s with Some c => c | None => NUL end.

(** [strlen]. *)
Fixpoint strlen (s : string) : nat :=
  match s with
  | EmptyString => 0
  | String c r => if Ascii.eqb c NUL then 0 else S (strlen r)
  end.

(** [str + k]. *)
Fixpoint drop (k : nat) (s : string) : string :=
  match k, s with
  | O, _ => s
  | S k', String _ r => drop k' r
  | S _, EmptyString => EmptyString
  end.

(** [strncmp]: compares as [unsigned char], stops at the first difference,
    at a NUL or after [n] characters. *)
Fixpoint strncmp (a b : string) (n : nat) : Z :=
  match n with
  | O => 0
  | S n' =>
      let c1 := char_at a 0 in
      let c2 := char_at b 0 in
      if negb (Ascii.eqb c1 c2)
      then Z.of_nat (nat_of_ascii c1) - Z.of_nat (nat_of_ascii c2)
      else if Ascii.eqb c1 NUL then 0
      else strncmp (drop 1 a) (drop 1 b) n'
  end.

(** The characters a C string denotes: those before its first NUL. *)
Fixpoint cstr (s : string) : string :=
  match s with
  | EmptyString => EmptyString
  | String c r => if Ascii.eqb c NUL then EmptyString else String c (cstr r)
  end.

(** [endsWith(const char* str, const char* suffix)]; [None] is [nullptr]. *)
Definition endsWith (str suffix : option string) : bool :=
  match str, suffix with
  | Some s, Some suf =>
      let lenstr := strlen s in
      let lensuffix := strlen suf in
      if (lenstr <? lensuffix)%nat then false
      else strncmp (drop (lenstr - lensuffix) s) suf lensuffix =? 0
  | _, _ => false
  end.

End CLI.

(* ------------------------------------------------------------------ *)
(** ** Auxiliary definitions used in the proofs *)

(** [v] is representable in [k] bits, two's complement when [signed]. *)
Definition fits (signed : bool) (k v : Z) : Prop :=
  if signed then - 2 ^ (k - 1) <= v < 2 ^ (k - 1) else 0 <= v < 2 ^ k.

(** [v] is a value of type [t]. *)
Definition in_type (t : ctype) (v : Z) : Prop := fits (is_signed t) (type_bits t) v.

(** A well-terminated LEB128 byte sequence: non-empty, the continuation bit
    set on every byte but the last, clear on the last. *)
Fixpoint shape (l : list Z) : bool :=
  match l with
  | [] => false
  | b :: r =>
      match r with
      | [] => Z.land b 128 =? 0
      | _ => negb (Z.land b 128 =? 0) && shape r
      end
  end.

(** The 7-bit groups of a byte sequence, little-endian. *)
Fixpoint combine (l : list Z) : Z :=
  match l with
  | [] => 0
  | b :: r => Z.lor (Z.land b (Z.lnot 128)) (Z.shiftl (combine r) 7)
  end.

(** The stream's invariant: the cursor is inside the buffer, and the buffer
    is at most 7/5 of the cursor plus 32 bytes. *)
Definition aos_inv (s : AOS.ArrayOutputStream) : Prop :=
  (AOS.next s <= length (AOS.bytes s))%nat
  /\ (5 * length (AOS.bytes s) <= 7 * AOS.next s + 160)%nat.

(** [v] is a value of the native type [t]. *)
Definition nrange (t : ntype) (v : Z) : Prop :=
  if nsigned t then - 2 ^ (nbits t - 1) <= v < 2 ^ (nbits t - 1)
  else 0 <= v < 2 ^ nbits t.

(** The registration an [EHState] holds, if any. *)
Definition eh_pending (st : EH.EHState) : option (Z * Z) :=
  if EH.hasRegisteredEHFrames st
  then Some (EH.ehFramesAddr st, EH.ehFramesNumBytes st) else None.

(* ================================================================== *)
(** * Proofs *)

Ltac consts :=
  change 127 with (Z.ones 7); change 255 with (Z.ones 8);
  change 128 with (2 ^ 7); change 64 with (2 ^ 6).

Ltac bits :=
  consts; Z.bitblast;
  repeat match goal with
         | |- context [?a =? ?b] => destruct (Z.eqb_spec a b)
         | |- context [?a <? ?b] => destruct (Z.ltb_spec a b)
         end; try lia; cbn; try btauto.

(** ** Value conversions *)

Lemma type_bits_range t : 8 <= type_bits t <= 64.
Proof. destruct t; simpl; lia. Qed.

Lemma pow_split w : 1 <= w -> 2 ^ w = 2 * 2 ^ (w - 1).
Proof.
  intros. rewrite <- Z.pow_succ_r by lia. f_equal. lia.
Qed.

Lemma wrap_mod t x : wrap t x mod 2 ^ type_bits t = x mod 2 ^ type_bits t.
Proof.
  unfold wrap. destruct (is_signed t).
  - rewrite Zminus_mod_idemp_l. f_equal. lia.
  - apply Z.mod_mod. apply Z.pow_nonzero; pose proof (type_bits_range t); lia.
Qed.

Lemma wrap_congr t x y :
  x mod 2 ^ type_bits t = y mod 2 ^ type_bits t -> wrap t x = wrap t y.
Proof.
  intros H. unfold wrap. destruct (is_signed t); [|exact H].
  rewrite (Zplus_mod x), (Zplus_mod y), H. reflexivity.
Qed.

Lemma wrap_id t x : in_type t x -> wrap t x = x.
Proof.
  unfold in_type, fits, wrap. pose proof (type_bits_range t).
  rewrite (pow_split (type_bits t)) by lia.
  destruct (is_signed t); intros Hx.
  - rewrite Z.mod_small by lia. lia.
  - rewrite <- pow_split in * by lia. apply Z.mod_small. lia.
Qed.

Lemma wrap_in_type t x : in_type t (wrap t x).
Proof.
  unfold in_type, fits, wrap. pose proof (type_bits_range t).
  assert (0 < 2 ^ (type_bits t - 1)) by (apply Z.pow_pos_nonneg; lia).
  rewrite (pow_split (type_bits t)) by lia.
  destruct (is_signed t).
  - pose proof (Z.mod_pos_bound (x + 2 ^ (type_bits t - 1)) (2 * 2 ^ (type_bits t - 1))).
    lia.
  - pose proof (Z.mod_pos_bound x (2 * 2 ^ (type_bits t - 1))). lia.
Qed.

Lemma testbit_wrap t x j :
  j < type_bits t -> Z.testbit (wrap t x) j = Z.testbit x j.
Proof.
  intros Hj. destruct (Z.ltb_spec j 0).
  - rewrite !Z.testbit_neg_r by lia. reflexivity.
  - pose proof (type_bits_range t).
    rewrite <- (Z.mod_pow2_bits_low (wrap t x) (type_bits t) j) by lia.
    rewrite wrap_mod, Z.mod_pow2_bits_low by lia. reflexivity.
Qed.

Lemma eq_mod_bits x y w :
  0 <= w -> (forall j, 0 <= j < w -> Z.testbit x j = Z.testbit y j) ->
  x mod 2 ^ w = y mod 2 ^ w.
Proof.
  intros Hw H. apply Z.bits_inj'. intros j Hj.
  rewrite !Z.testbit_mod_pow2 by lia.
  destruct (Z.ltb_spec j w); simpl; [apply H; lia | reflexivity].
Qed.

Lemma wrap_bits t x y :
  (forall j, 0 <= j < type_bits t -> Z.testbit x j = Z.testbit y j) ->
  wrap t x = wrap t y.
Proof.
  intros H. apply wrap_congr, eq_mod_bits; [pose proof (type_bits_range t); lia | exact H].
Qed.

Lemma fits_mono signed a b v : 1 <= a <= b -> fits signed a v -> fits signed b v.
Proof.
  unfold fits. intros Hab.
  assert (2 ^ (a - 1) <= 2 ^ (b - 1)) by (apply Z.pow_le_mono_r; lia).
  assert (2 ^ a <= 2 ^ b) by (apply Z.pow_le_mono_r; lia).
  destruct signed; lia.
Qed.

(** ** Assembling the 7-bit groups *)

Lemma testbit_assemble t l : forall i acc j,
  0 <= i -> j < type_bits t ->
  Z.testbit (assemble t l i acc) j
  = Z.testbit (Z.lor acc (Z.shiftl (combine l) (i * 7))) j.
Proof.
  induction l as [|b l IH]; intros i acc j Hi Hj; cbn [assemble combine].
  - rewrite Z.shiftl_0_l, Z.lor_0_r. reflexivity.
  - rewrite IH by lia.
    destruct (Z.ltb_spec j 0).
    { rewrite !Z.testbit_neg_r by lia. reflexivity. }
    repeat first [ rewrite Z.lor_spec | rewrite Z.shiftl_spec'
                 | rewrite testbit_wrap by lia ].
    destruct (Z.ltb_spec (j - i * 7) 0).
    + rewrite !(Z.testbit_neg_r _ (j - i * 7)) by lia.
      rewrite !(Z.testbit_neg_r _ (j - (i + 1) * 7)) by lia.
      rewrite !(Z.testbit_neg_r _ (j - i * 7 - 7)) by lia.
      destruct (j <? 0), (j - i * 7 <? 0); btauto.
    + replace (j - i * 7 - 7) with (j - (i + 1) * 7) by lia.
      destruct (Z.ltb_spec j 0); [lia|].
      destruct (Z.ltb_spec (j - i * 7) 0); [lia|]. btauto.
Qed.

Lemma combine_zeros l k : combine (l ++ repeat 0 k) = combine l.
Proof.
  induction l as [|b l IH]; cbn [app combine].
  - induction k as [|k IHk]; cbn [repeat combine]; [reflexivity|].
    rewrite IHk. reflexivity.
  - rewrite IH. reflexivity.
Qed.

Lemma assemble_in_type t l : forall i acc, in_type t acc -> in_type t (assemble t l i acc).
Proof.
  induction l as [|b l IH]; intros i acc H; simpl; [exact H|].
  apply IH, wrap_in_type.
Qed.

(** ** The encoder loop *)

Lemma land64 v : Z.land (u8 (Z.land v 127)) 64 = (v / 64) mod 2 * 64.
Proof.
  unfold u8.
  transitivity (Z.shiftl (Z.land (Z.shiftr v 6) (Z.ones 1)) 6); [bits|].
  rewrite Z.land_ones, Z.shiftl_mul_pow2, Z.shiftr_div_pow2 by lia. reflexivity.
Qed.

(** The signed loop stops exactly when the remaining value is in [-64, 64). *)
Lemma more_signed_false v :
  more_flag true (Z.shiftr v 7) (u8 (Z.land v 127)) = false <-> -64 <= v < 64.
Proof.
  unfold more_flag. rewrite land64, Z.shiftr_div_pow2 by lia.
  change (2 ^ 7) with 128.
  destruct (Z.eqb_spec (v / 128) 0), (Z.eqb_spec (v / 128) (-1)),
    (Z.leb_spec 0 (v / 128)), (Z.ltb_spec (v / 128) 0),
    (Z.eqb_spec ((v / 64) mod 2 * 64) 0); simpl;
    split; intros; try discriminate; try reflexivity;
    Z.div_mod_to_equations; lia.
Qed.

Lemma more_unsigned_false v b :
  0 <= v -> more_flag false (Z.shiftr v 7) b = false <-> v < 128.
Proof.
  intros Hv. unfold more_flag. rewrite Z.shiftr_div_pow2 by lia. change (2 ^ 7) with 128.
  destruct (Z.eqb_spec (v / 128) 0); simpl; split; intros; try discriminate;
    try reflexivity; Z.div_mod_to_equations; lia.
Qed.

Lemma more_false_fits signed v :
  (signed = false -> 0 <= v) ->
  more_flag signed (Z.shiftr v 7) (u8 (Z.land v 127)) = false <-> fits signed 7 v.
Proof.
  intros Hv. unfold fits. destruct signed.
  - rewrite more_signed_false. change (2 ^ (7 - 1)) with 64. lia.
  - rewrite more_unsigned_false by auto. change (2 ^ 7) with 128. lia.
Qed.

Lemma fits_nonneg v k : fits false k v -> 0 <= v.
Proof. unfold fits. lia. Qed.

Lemma fits_shiftr signed c u v :
  0 <= c -> 1 <= u -> fits signed (c + u) v -> fits signed u (Z.shiftr v c).
Proof.
  intros Hc Hu. unfold fits. rewrite Z.shiftr_div_pow2 by lia.
  assert (0 < 2 ^ c) by (apply Z.pow_pos_nonneg; lia).
  destruct signed; intros [H1 H2].
  - replace (2 ^ (c + u - 1)) with (2 ^ c * 2 ^ (u - 1)) in *
      by (rewrite <- Z.pow_add_r by lia; f_equal; lia).
    split.
    + apply Z.div_le_lower_bound; lia.
    + apply Z.div_lt_upper_bound; lia.
  - replace (2 ^ (c + u)) with (2 ^ c * 2 ^ u) in *
      by (rewrite <- Z.pow_add_r by lia; f_equal; lia).
    split.
    + apply Z.div_pos; lia.
    + apply Z.div_lt_upper_bound; lia.
Qed.

Lemma fits_shiftl7 signed k v :
  1 <= k -> fits signed k (Z.shiftr v 7) -> fits signed (k + 7) v.
Proof.
  intros Hk. unfold fits. rewrite Z.shiftr_div_pow2 by lia. change (2 ^ 7) with 128.
  destruct signed.
  - replace (2 ^ (k + 7 - 1)) with (128 * 2 ^ (k - 1))
      by (change 128 with (2 ^ 7); rewrite <- Z.pow_add_r by lia; f_equal; lia).
    intros. Z.div_mod_to_equations. lia.
  - replace (2 ^ (k + 7)) with (128 * 2 ^ k)
      by (change 128 with (2 ^ 7); rewrite <- Z.pow_add_r by lia; f_equal; lia).
    intros. Z.div_mod_to_equations. lia.
Qed.

Lemma shape_cons2 a b l :
  shape (a :: b :: l) = negb (Z.land a 128 =? 0) && shape (b :: l).
Proof. reflexivity. Qed.

Lemma combine_cons b l :
  combine (b :: l) = Z.lor (Z.land b (Z.lnot 128)) (Z.shiftl (combine l) 7).
Proof. reflexivity. Qed.

Lemma cont_bit_set x : Z.land (u8 (Z.lor x 128)) 128 = 128.
Proof. unfold u8. bits. Qed.

Lemma u8_land127 v : u8 (Z.land v 127) = Z.land v 127.
Proof. unfold u8. bits. Qed.

Lemma encode_loop_spec signed k : forall fuel v,
  (1 <= k)%nat -> (k <= fuel)%nat -> fits signed (7 * Z.of_nat k) v ->
  let l := encode_loop signed fuel v in
  exists n, (1 <= n <= k)%nat /\ length l = n /\ shape l = true
    /\ combine l = v mod 2 ^ (7 * Z.of_nat n) /\ fits signed (7 * Z.of_nat n) v
    /\ last l 0 = Z.land (Z.shiftr v (7 * (Z.of_nat n - 1))) 127.
Proof.
  induction k as [|k IH]; intros fuel v Hk Hf Hv; [lia|].
  destruct fuel as [|f]; [lia|]. cbn zeta.
  cbn [encode_loop].
  assert (Hnn : signed = false -> 0 <= v)
    by (intros ->; exact (fits_nonneg _ _ Hv)).
  destruct (more_flag signed (Z.shiftr v 7) (u8 (Z.land v 127))) eqn:Hmore.
  - (* another byte follows *)
    destruct k as [|k].
    { exfalso. assert (H7 : fits signed 7 v) by exact Hv.
      apply (more_false_fits signed v Hnn) in H7. congruence. }
    assert (Hv' : fits signed (7 * Z.of_nat (S k)) (Z.shiftr v 7)).
    { apply (fits_shiftr signed 7); [lia|lia|].
      replace (7 + 7 * Z.of_nat (S k)) with (7 * Z.of_nat (S (S k))) by lia. exact Hv. }
    destruct (IH f (Z.shiftr v 7) ltac:(lia) ltac:(lia) Hv')
      as (n & Hn & Hlen & Hshape & Hcomb & Hfits & Hlast).
    exists (S n). set (l := encode_loop signed f (Z.shiftr v 7)) in *.
    destruct l as [|b' l']; [simpl in Hlen; lia|].
    cbn [length]. split; [lia|]. split; [simpl in Hlen; lia|]. split.
    { rewrite shape_cons2, Hshape, andb_true_r.
      rewrite cont_bit_set. reflexivity. }
    split.
    { rewrite combine_cons, Hcomb.
      replace (7 * Z.of_nat (S n)) with (7 * Z.of_nat n + 7) by lia.
      rewrite u8_land127. unfold u8. bits. }
    split.
    { replace (7 * Z.of_nat (S n)) with (7 * Z.of_nat n + 7) by lia.
      apply fits_shiftl7; [lia|exact Hfits]. }
    { change (last (u8 (Z.lor (u8 (Z.land v 127)) 128) :: b' :: l') 0)
        with (last (b' :: l') 0).
      rewrite Hlast, Z.shiftr_shiftr by lia. f_equal. f_equal. lia. }
  - (* last byte *)
    exists 1%nat. cbn [length]. split; [lia|]. split; [reflexivity|].
    apply (more_false_fits signed v Hnn) in Hmore.
    split; [cbn [shape]; rewrite u8_land127; apply Z.eqb_eq; bits|].
    split; [cbn [combine]; rewrite u8_land127; bits|].
    split; [exact Hmore|].
    cbn [last]. rewrite u8_land127.
    replace (7 * (Z.of_nat 1 - 1)) with 0 by lia. rewrite Z.shiftr_0_r. reflexivity.
Qed.

(** ** The decoder *)

Lemma read_bytes_shape l : forall fuel pre rest,
  shape l = true -> (length l <= fuel)%nat ->
  read_bytes fuel {| buf := pre ++ l ++ rest; next := length pre |}
  = (Ok l, {| buf := pre ++ l ++ rest; next := length pre + length l |}).
Proof.
  induction l as [|b r IH]; intros fuel pre rest Hs Hlen; [discriminate|].
  destruct fuel as [|f]; [simpl in Hlen; lia|].
  cbn [read_bytes]. unfold advance. cbn [buf next].
  assert (Hlt : (length (pre ++ (b :: r) ++ rest) <? length pre + 1)%nat = false).
  { apply Nat.ltb_ge. rewrite !length_app. simpl. lia. }
  rewrite Hlt. cbn [buf next].
  assert (Hnth : nth (length pre) (pre ++ (b :: r) ++ rest) 0 = b) by apply nth_middle.
  rewrite Hnth.
  destruct r as [|b' r'].
  - cbn [shape] in Hs. rewrite Hs. cbn [length].
    replace (length pre + 1)%nat with (length pre + 1)%nat by lia. reflexivity.
  - rewrite shape_cons2 in Hs. apply andb_true_iff in Hs as [Hb Hs].
    apply negb_true_iff in Hb. rewrite Hb.
    replace (pre ++ (b :: b' :: r') ++ rest) with ((pre ++ [b]) ++ (b' :: r') ++ rest)
      by (rewrite <- app_assoc; reflexivity).
    replace (length pre + 1)%nat with (length (pre ++ [b]))
      by (rewrite length_app; reflexivity).
    rewrite IH by (try exact Hs; simpl in Hlen |- *; lia).
    f_equal. f_equal. rewrite length_app. simpl. lia.
Qed.

Lemma maxBytes_spec B :
  1 <= B ->
  1 <= numUsedBitsInHighestByte B <= 7 /\ 1 <= maxBytes B <= B
  /\ B = 7 * (maxBytes B - 1) + numUsedBitsInHighestByte B.
Proof. unfold numUsedBitsInHighestByte, maxBytes. Z.div_mod_to_equations. lia. Qed.

(** The final-byte test, for every number of used bits, on every group of a
    value that fits those bits (checked on all 7-bit patterns). *)
Lemma final_byte_table (signed : bool) :
  forallb (fun u =>
    forallb (fun r =>
      implb (if signed then (- 2 ^ (u - 1) <=? r) && (r <? 2 ^ (u - 1))
             else (0 <=? r) && (r <? 2 ^ u))
        (negb (let hi := Z.land (Z.land r 127) (Z.lnot (u8 (Z.shiftl 1 u) - 1)) in
               negb (hi =? 0)
               && (negb (hi =? u8 (Z.land (Z.lnot (u8 (u8 (Z.shiftl 1 u) - 1)))
                                          (Z.lnot (u8 128))))
                   || negb signed))))
      (map (fun i => Z.of_nat i - 64) (seq 0 192)))
    [1; 2; 3; 4; 5; 6; 7] = true.
Proof. destruct signed; vm_compute; reflexivity. Qed.

Lemma final_byte_ok signed B r :
  1 <= B -> fits signed (numUsedBitsInHighestByte B) r ->
  invalid_final_byte signed B (Z.land r 127) = false.
Proof.
  intros HB Hr. destruct (maxBytes_spec B HB) as [Hu _].
  unfold invalid_final_byte, highestByteSignedBitmask, highestByteUsedBitmask.
  set (u := numUsedBitsInHighestByte B) in *.
  pose proof (final_byte_table signed) as T.
  rewrite forallb_forall in T.
  assert (Hin : In u [1; 2; 3; 4; 5; 6; 7]) by (simpl; lia).
  specialize (T u Hin). rewrite forallb_forall in T.
  assert (Hpow : 2 ^ (u - 1) <= 64 /\ 2 ^ u <= 128).
  { split; [change 64 with (2 ^ 6) | change 128 with (2 ^ 7)];
      apply Z.pow_le_mono_r; lia. }
  assert (Hrin : In r (map (fun i => Z.of_nat i - 64) (seq 0 192))).
  { apply in_map_iff. exists (Z.to_nat (r + 64)). split.
    - rewrite Z2Nat.id; [lia|]. unfold fits in Hr. destruct signed; lia.
    - apply in_seq. unfold fits in Hr. destruct signed; lia. }
  specialize (T r Hrin). unfold fits in Hr.
  destruct signed.
  - destruct (Z.leb_spec (- 2 ^ (u - 1)) r); [|lia].
    destruct (Z.ltb_spec r (2 ^ (u - 1))); [|lia].
    simpl in T. apply negb_true_iff in T. exact T.
  - destruct (Z.leb_spec 0 r); [|lia].
    destruct (Z.ltb_spec r (2 ^ u)); [|lia].
    simpl in T. apply negb_true_iff in T. exact T.
Qed.

Lemma invalid_final_byte_0 signed B : invalid_final_byte signed B 0 = false.
Proof. reflexivity. Qed.

Lemma nth_last_app (l : list Z) d :
  l <> [] -> nth (length l - 1) (l ++ []) d = last l d.
Proof.
  intros Hl. rewrite app_nil_r.
  induction l as [|a l IH]; [congruence|].
  destruct l as [|b l]; [reflexivity|].
  change (last (a :: b :: l) d) with (last (b :: l) d).
  rewrite <- IH by discriminate. simpl. rewrite Nat.sub_0_r. reflexivity.
Qed.

Lemma in_type_0 t : in_type t 0.
Proof.
  unfold in_type, fits. pose proof (type_bits_range t).
  assert (0 < 2 ^ (type_bits t - 1)) by (apply Z.pow_pos_nonneg; lia).
  assert (0 < 2 ^ type_bits t) by (apply Z.pow_pos_nonneg; lia).
  destruct (is_signed t); lia.
Qed.

(** Decoding the encoder's bytes, in any stream context, gives the value back
    and consumes exactly those bytes. *)
Lemma decode_encode t B v pre rest :
  1 <= B <= type_bits t -> fits (is_signed t) B v ->
  let l := encode_loop (is_signed t) (Z.to_nat (type_bits t)) v in
  (1 <= length l <= Z.to_nat (maxBytes B))%nat /\ shape l = true /\
  decodeLEB t B {| buf := pre ++ l ++ rest; next := length pre |}
  = (Ok v, {| buf := pre ++ l ++ rest; next := length pre + length l |}).
Proof.
  intros HB Hv l.
  pose proof (type_bits_range t) as Hw.
  destruct (maxBytes_spec B ltac:(lia)) as (Hu & Hm & HBm).
  set (m := Z.to_nat (maxBytes B)).
  assert (Hmz : Z.of_nat m = maxBytes B) by (unfold m; rewrite Z2Nat.id; lia).
  assert (Hvm : fits (is_signed t) (7 * Z.of_nat m) v)
    by (apply (fits_mono _ B); [lia | exact Hv]).
  assert (Hvt : in_type t v) by (apply (fits_mono _ B); [lia | exact Hv]).
  destruct (encode_loop_spec (is_signed t) m (Z.to_nat (type_bits t)) v
              ltac:(lia) ltac:(lia) Hvm)
    as (n & Hn & Hlen & Hshape & Hcomb & Hfits & Hlast).
  fold l in Hlen, Hshape, Hcomb, Hlast.
  split; [lia|]. split; [exact Hshape|].
  unfold decodeLEB. fold m.
  rewrite read_bytes_shape by (try exact Hshape; lia).
  assert (Hfb : invalid_final_byte (is_signed t) B
                  (nth (m - 1) (l ++ repeat 0 (m - length l)) 0) = false).
  { destruct (Nat.eq_dec n m) as [<-|Hne].
    - rewrite Hlen, Nat.sub_diag. cbn [repeat].
      assert (Hl : l <> []) by (intros E; rewrite E in Hlen; simpl in Hlen; lia).
      rewrite <- Hlen, nth_last_app by exact Hl. rewrite Hlast.
      apply final_byte_ok; [lia|].
      apply fits_shiftr; [lia|lia|].
      replace (7 * (Z.of_nat n - 1) + numUsedBitsInHighestByte B) with B by lia.
      exact Hv.
    - rewrite app_nth2 by lia. rewrite nth_repeat. apply invalid_final_byte_0. }
  rewrite Hfb.
  set (r := assemble t (l ++ repeat 0 (m - length l)) 0 0).
  assert (Hbits : forall j, 0 <= j < type_bits t ->
            Z.testbit r j = Z.testbit (v mod 2 ^ (7 * Z.of_nat n)) j).
  { intros j Hj. unfold r. rewrite testbit_assemble by lia.
    rewrite Z.mul_0_l, Z.shiftl_0_r, Z.lor_0_l, combine_zeros, Hcomb. reflexivity. }
  assert (Hr : in_type t r) by (apply assemble_in_type, in_type_0).
  rewrite Hlen.
  destruct (is_signed t) eqn:Hs.
  - destruct (Z.ltb_spec 0 (type_bits t - 7 * Z.of_nat n)) as [Hsh|Hsh];
      cbn [andb].
    + set (s := type_bits t - 7 * Z.of_nat n).
      assert (Hw1 : wrap t (Z.shiftl r s) = Z.shiftl v s).
      { transitivity (wrap t (Z.shiftl v s)).
        - apply wrap_bits. intros j Hj. rewrite !Z.shiftl_spec by lia.
          destruct (Z.ltb_spec (j - s) 0).
          + rewrite !Z.testbit_neg_r by lia. reflexivity.
          + rewrite Hbits by lia. apply Z.mod_pow2_bits_low. lia.
        - apply wrap_id. unfold in_type, fits in *. rewrite Hs in *.
          rewrite Z.shiftl_mul_pow2 by lia.
          assert (E : 2 ^ (type_bits t - 1) = 2 ^ (7 * Z.of_nat n - 1) * 2 ^ s)
            by (rewrite <- Z.pow_add_r by lia; f_equal; unfold s; lia).
          rewrite E.
          assert (0 < 2 ^ s) by (apply Z.pow_pos_nonneg; lia).
          assert (0 < 2 ^ (7 * Z.of_nat n - 1)) by (apply Z.pow_pos_nonneg; lia).
          nia. }
      rewrite Hw1, Z.shiftr_shiftl_l by lia. rewrite Z.sub_diag, Z.shiftl_0_r.
      rewrite wrap_id by exact Hvt. reflexivity.
    + rewrite <- (wrap_id t r Hr), <- (wrap_id t v Hvt) at 1.
      f_equal. f_equal. apply wrap_bits. intros j Hj.
      rewrite Hbits by lia. apply Z.mod_pow2_bits_low. lia.
  - cbn [andb].
    rewrite <- (wrap_id t r Hr), <- (wrap_id t v Hvt) at 1.
    f_equal. f_equal. apply wrap_bits. intros j Hj.
    rewrite Hbits by lia. unfold fits in Hfits. rewrite Z.mod_small by lia. reflexivity.
Qed.

Lemma shape_bits l :
  shape l = true ->
  (forall i, (S i < length l)%nat -> Z.land (nth i l 0) 128 <> 0)
  /\ Z.land (last l 0) 128 = 0.
Proof.
  induction l as [|b r IH]; intros Hs; [discriminate|].
  destruct r as [|b' r'].
  - cbn [shape] in Hs. apply Z.eqb_eq in Hs. split; [intros i Hi; simpl in Hi; lia|exact Hs].
  - rewrite shape_cons2 in Hs. apply andb_true_iff in Hs as [Hb Hs].
    apply negb_true_iff, Z.eqb_neq in Hb.
    destruct (IH Hs) as [Hmid Hlast]. split.
    + intros [|i] Hi; [exact Hb|]. apply Hmid. simpl in Hi |- *. lia.
    + exact Hlast.
Qed.

Lemma read_bytes_full l : forall pre rest,
  (forall i, (S i < length l)%nat -> Z.land (nth i l 0) 128 <> 0) ->
  read_bytes (length l) {| buf := pre ++ l ++ rest; next := length pre |}
  = (Ok l, {| buf := pre ++ l ++ rest; next := length pre + length l |}).
Proof.
  induction l as [|b r IH]; intros pre rest Hc.
  - cbn. rewrite Nat.add_0_r. reflexivity.
  - cbn [length read_bytes]. unfold advance. cbn [buf next].
    assert (Hlt : (length (pre ++ (b :: r) ++ rest) <? length pre + 1)%nat = false).
    { apply Nat.ltb_ge. rewrite !length_app. simpl. lia. }
    rewrite Hlt. cbn [buf next].
    assert (Hnth : nth (length pre) (pre ++ (b :: r) ++ rest) 0 = b) by apply nth_middle.
    rewrite Hnth.
    destruct r as [|b' r'].
    + cbn [read_bytes]. destruct (Z.land b 128 =? 0);
        replace (length pre + 1)%nat with (length pre + length [b])%nat by reflexivity;
        reflexivity.
    + assert (Hb : Z.land b 128 <> 0) by (apply (Hc 0%nat); simpl; lia).
      apply Z.eqb_neq in Hb. rewrite Hb.
      replace (pre ++ (b :: b' :: r') ++ rest) with ((pre ++ [b]) ++ (b' :: r') ++ rest)
        by (rewrite <- app_assoc; reflexivity).
      replace (length pre + 1)%nat with (length (pre ++ [b]))
        by (rewrite length_app; reflexivity).
      rewrite IH.
      * f_equal. f_equal. rewrite length_app. simpl. lia.
      * intros i Hi. apply (Hc (S i)). simpl in Hi |- *. lia.
Qed.

Lemma signed_mask_spec B :
  1 <= B ->
  u8 (highestByteSignedBitmask B) = Z.land 127 (Z.lnot (highestByteUsedBitmask B))
  /\ 0 <= highestByteUsedBitmask B < 128.
Proof.
  intros HB. destruct (maxBytes_spec B HB) as [Hu _].
  unfold highestByteSignedBitmask, highestByteUsedBitmask.
  set (u := numUsedBitsInHighestByte B) in *.
  assert (u = 1 \/ u = 2 \/ u = 3 \/ u = 4 \/ u = 5 \/ u = 6 \/ u = 7) by lia.
  repeat match goal with H : _ \/ _ |- _ => destruct H end;
    match goal with H : u = _ |- _ => rewrite H end;
    (split; [vm_compute; reflexivity | split; vm_compute; congruence]).
Qed.

Lemma helper_range h t :
  is_signed t = helper_signed h -> helper_bits h <= type_bits t ->
  wrap t (helper_min h) = helper_min h /\ wrap t (helper_max h) = helper_max h
  /\ (forall v, helper_min h <= v <= helper_max h -> fits (helper_signed h) (helper_bits h) v)
  /\ 1 <= helper_bits h.
Proof.
  destruct h, t; cbn [is_signed helper_signed helper_bits type_bits];
    intros Hs Hb; try discriminate; try lia;
    (split; [vm_compute; reflexivity|split; [vm_compute; reflexivity|]]);
    (split; [intros v Hv; unfold fits; cbn [helper_min helper_max] in Hv; lia | lia]).
Qed.

(* ================================================================== *)
(** * The claims *)

(** ** LEB128 codec *)

(** C1: for each named helper ([varuint1], [varuint7], [varuint32],
    [varuint64], [varint32], [varint64]), instantiated with a [Value] type of
    the helper's signedness that holds its range, and every value in the
    helper's declared range, encoding to an output stream and decoding those
    bytes (followed by anything) from a memory input stream yields the
    original value. *)
Theorem varint_roundtrip (h : helper) (t : ctype) (v : Z) (rest : list Z) :
  is_signed t = helper_signed h -> helper_bits h <= type_bits t ->
  helper_min h <= v <= helper_max h ->
  exists bytes, serializeHelper_out h t [] v = (Ok tt, bytes)
    /\ serializeHelper_in h t {| buf := bytes ++ rest; next := 0 |}
       = (Ok v, {| buf := bytes ++ rest; next := length bytes |}).
Proof.
  intros Hs Hb Hv.
  destruct (helper_range h t Hs Hb) as (Hmin & Hmax & Hfits & H1).
  exists (encode_loop (is_signed t) (Z.to_nat (type_bits t)) v). split.
  - unfold serializeHelper_out, serializeVarInt_out. rewrite Hmin, Hmax.
    destruct (Z.ltb_spec v (helper_min h)); [lia|].
    destruct (Z.ltb_spec (helper_max h) v); [lia|]. reflexivity.
  - unfold serializeHelper_in, serializeVarInt_in. rewrite Hmin, Hmax.
    assert (Hf : fits (is_signed t) (helper_bits h) v) by (rewrite Hs; auto).
    destruct (decode_encode t (helper_bits h) v [] rest ltac:(lia) Hf) as (_ & _ & D).
    cbn [app length] in D. rewrite D.
    destruct (Z.ltb_spec v (helper_min h)); [lia|].
    destruct (Z.ltb_spec (helper_max h) v); [lia|]. reflexivity.
Qed.

Lemma varint_roundtrip_witness :
  is_signed I32 = helper_signed VarInt32 /\ helper_bits VarInt32 <= type_bits I32
  /\ helper_min VarInt32 <= -123456 <= helper_max VarInt32
  /\ exists bytes, serializeHelper_out VarInt32 I32 [] (-123456) = (Ok tt, bytes)
       /\ serializeHelper_in VarInt32 I32 {| buf := bytes ++ [7]; next := 0 |}
          = (Ok (-123456), {| buf := bytes ++ [7]; next := length bytes |}).
Proof.
  split; [reflexivity|]. split; [vm_compute; congruence|].
  split; [vm_compute; split; congruence|].
  apply varint_roundtrip; [reflexivity | vm_compute; congruence | vm_compute; split; congruence].
Defined.

(** C2 (counterexample): the bytes E5 8E A6 00 decode as varuint32 to
    624485; they are not rejected. *)
Lemma varint_padded_accepted :
  serializeHelper_in VarUInt32 U32 {| buf := [0xE5; 0x8E; 0xA6; 0x00]; next := 0 |}
  = (Ok 624485, {| buf := [0xE5; 0x8E; 0xA6; 0x00]; next := 4 |}).
Proof. vm_compute. reflexivity. Qed.

(** The final-byte rejection of [decodeLEB] (used by C2). *)
Lemma varint_final_byte_rejected (t : ctype) (B minValue maxValue : Z)
    (pre l rest : list Z) :
  1 <= B <= type_bits t -> length l = Z.to_nat (maxBytes B) ->
  (forall i, (S i < length l)%nat -> Z.land (nth i l 0) 128 <> 0) ->
  (Z.land (last l 0) 128 <> 0
   \/ (Z.land (last l 0) (Z.lnot (highestByteUsedBitmask B)) <> 0
       /\ (is_signed t = false
           \/ Z.land (last l 0) (Z.lnot (highestByteUsedBitmask B))
              <> Z.land 127 (Z.lnot (highestByteUsedBitmask B))))) ->
  serializeVarInt_in t B {| buf := pre ++ l ++ rest; next := length pre |} minValue maxValue
  = (Err InvalidFinalByte, {| buf := pre ++ l ++ rest; next := length pre + length l |})
  /\ message InvalidFinalByte = "Invalid LEB encoding: invalid final byte"%string.
Proof.
  intros HB Hlen Hcont Hlast. split; [|reflexivity].
  destruct (maxBytes_spec B ltac:(lia)) as (Hu & Hm & HBm).
  destruct (signed_mask_spec B ltac:(lia)) as [Hsm Hum].
  unfold serializeVarInt_in, decodeLEB.
  rewrite <- Hlen, read_bytes_full by exact Hcont.
  rewrite Nat.sub_diag. cbn [repeat].
  assert (Hl : l <> []) by (intros E; subst l; simpl in Hlen; lia).
  rewrite Hlen at 2. rewrite <- Hlen. rewrite nth_last_app by exact Hl.
  assert (Hinv : invalid_final_byte (is_signed t) B (last l 0) = true).
  { unfold invalid_final_byte. rewrite Hsm.
    set (x := last l 0) in *. set (m := highestByteUsedBitmask B) in *.
    destruct Hlast as [Hc | [Hhi Hsg]].
    - assert (E1 : Z.land (Z.land x (Z.lnot m)) 128 = Z.land x 128).
      { rewrite <- Z.land_assoc. f_equal.
        apply Z.bits_inj'. intros j Hj. rewrite Z.land_spec, Z.lnot_spec by lia.
        destruct (Z.eqb_spec j 7).
        - subst j.
          assert (Hm7 : Z.testbit m 7 = false).
          { rewrite <- (Z.mod_small m (2 ^ 7)) by (change (2 ^ 7) with 128; lia).
            apply Z.mod_pow2_bits_high. lia. }
          rewrite Hm7. reflexivity.
        - change 128 with (2 ^ 7). rewrite Z.pow2_bits_false by lia. btauto. }
      assert (E2 : Z.land (Z.land 127 (Z.lnot m)) 128 = 0).
      { rewrite <- Z.land_assoc, (Z.land_comm (Z.lnot m)), Z.land_assoc. reflexivity. }
      assert (Hne0 : Z.land x (Z.lnot m) <> 0)
        by (intros E; rewrite E in E1; simpl in E1; congruence).
      apply Z.eqb_neq in Hne0. rewrite Hne0. cbn [negb andb].
      assert (Hne : Z.land x (Z.lnot m) <> Z.land 127 (Z.lnot m))
        by (intros E; rewrite E, E2 in E1; congruence).
      apply Z.eqb_neq in Hne. rewrite Hne. reflexivity.
    - apply Z.eqb_neq in Hhi. rewrite Hhi. cbn [negb andb].
      destruct Hsg as [-> | Hne].
      + apply orb_true_r.
      + apply Z.eqb_neq in Hne. rewrite Hne. reflexivity. }
  rewrite Hinv. reflexivity.
Qed.

Lemma read_bytes_bound fuel : forall s r s',
  read_bytes fuel s = (r, s') ->
  buf s' = buf s /\ (next s <= next s' <= next s + fuel)%nat.
Proof.
  induction fuel as [|f IH]; intros s r s' H; cbn [read_bytes] in H.
  - injection H as _ <-. split; [reflexivity | lia].
  - unfold advance in H.
    destruct (Nat.ltb (length (buf s)) (next s + 1)).
    + injection H as _ <-. split; [reflexivity | lia].
    + cbn [buf next] in H.
      destruct (Z.land _ 128 =? 0).
      * injection H as _ <-. cbn. split; [reflexivity | lia].
      * destruct (read_bytes f _) as [[bs|e] s''] eqn:E;
          injection H as _ <-; apply IH in E; cbn in E;
          destruct E as [-> E]; (split; [reflexivity | lia]).
Qed.

Lemma serializeVarInt_in_bound t B s minValue maxValue :
  let s' := snd (serializeVarInt_in t B s minValue maxValue) in
  buf s' = buf s /\ (next s <= next s' <= next s + Z.to_nat (maxBytes B))%nat.
Proof.
  cbn zeta. unfold serializeVarInt_in, decodeLEB.
  destruct (read_bytes (Z.to_nat (maxBytes B)) s) as [r s'] eqn:E.
  apply read_bytes_bound in E.
  destruct r as [read|e]; [|exact E].
  destruct (invalid_final_byte _ _ _); [exact E|].
  destruct (_ || _); exact E.
Qed.

Lemma shape_of_bits l :
  l <> [] ->
  (forall i, (S i < length l)%nat -> Z.land (nth i l 0) 128 <> 0) ->
  Z.land (last l 0) 128 = 0 ->
  shape l = true.
Proof.
  induction l as [|b r IH]; intros Hl Hc Hlast; [congruence|].
  destruct r as [|b' r'].
  - cbn [shape]. apply Z.eqb_eq. exact Hlast.
  - rewrite shape_cons2. apply andb_true_intro. split.
    + apply negb_true_iff, Z.eqb_neq. apply (Hc 0%nat). simpl. lia.
    + apply IH; [discriminate | | exact Hlast].
      intros i Hi. apply (Hc (S i)). simpl in Hi |- *. lia.
Qed.

(** C2 (amended): decoding never moves the cursor by more than ⌈B/7⌉
    bytes.  When the first ⌈B/7⌉ bytes all have the continuation bit set, or
    the first ⌈B/7⌉-1 do and the ⌈B/7⌉-th has unused high bits that are not
    all zero (unsigned types) or neither all zero nor all one (signed types),
    decoding throws "Invalid LEB encoding: invalid final byte" after
    consuming those ⌈B/7⌉ bytes.  Every other run of at most ⌈B/7⌉ bytes
    that ends at the first byte with a clear continuation bit, including
    encodings padded with extra groups, passes the final-byte check: it
    decodes to a value, consuming exactly those bytes, and only the range
    check remains. *)
Theorem varint_reject_final_byte (t : ctype) (B minValue maxValue : Z) :
  1 <= B <= type_bits t ->
  (forall s, let s' := snd (serializeVarInt_in t B s minValue maxValue) in
     buf s' = buf s /\ (next s <= next s' <= next s + Z.to_nat (maxBytes B))%nat)
  /\ (forall pre l rest,
      length l = Z.to_nat (maxBytes B) ->
      (forall i, (S i < length l)%nat -> Z.land (nth i l 0) 128 <> 0) ->
      (Z.land (last l 0) 128 <> 0
       \/ (Z.land (last l 0) (Z.lnot (highestByteUsedBitmask B)) <> 0
           /\ (is_signed t = false
               \/ Z.land (last l 0) (Z.lnot (highestByteUsedBitmask B))
                  <> Z.land 127 (Z.lnot (highestByteUsedBitmask B))))) ->
      serializeVarInt_in t B {| buf := pre ++ l ++ rest; next := length pre |} minValue maxValue
      = (Err InvalidFinalByte, {| buf := pre ++ l ++ rest; next := length pre + length l |}))
  /\ message InvalidFinalByte = "Invalid LEB encoding: invalid final byte"%string
  /\ (forall pre l rest,
      l <> [] -> (length l <= Z.to_nat (maxBytes B))%nat ->
      (forall i, (S i < length l)%nat -> Z.land (nth i l 0) 128 <> 0) ->
      Z.land (last l 0) 128 = 0 ->
      ((length l < Z.to_nat (maxBytes B))%nat
       \/ Z.land (last l 0) (Z.lnot (highestByteUsedBitmask B)) = 0
       \/ (is_signed t = true
           /\ Z.land (last l 0) (Z.lnot (highestByteUsedBitmask B))
              = Z.land 127 (Z.lnot (highestByteUsedBitmask B)))) ->
      exists v,
        let s' := {| buf := pre ++ l ++ rest; next := length pre + length l |} in
        serializeVarInt_in t B {| buf := pre ++ l ++ rest; next := length pre |} minValue maxValue
        = (if (v <? minValue) || (maxValue <? v)
           then (Err (OutOfRange minValue v maxValue), s') else (Ok v, s'))).
Proof.
  intros HB. split; [intros s; apply serializeVarInt_in_bound|].
  split.
  { intros pre l rest Hlen Hc Hl.
    exact (proj1 (varint_final_byte_rejected t B minValue maxValue pre l rest HB Hlen Hc Hl)). }
  split; [reflexivity|].
  intros pre l rest Hne Hlen Hc Hlast Hok.
  destruct (signed_mask_spec B ltac:(lia)) as [Hsm _].
  unfold serializeVarInt_in, decodeLEB.
  rewrite read_bytes_shape by (try apply shape_of_bits; assumption).
  assert (Hinv : invalid_final_byte (is_signed t) B
                   (nth (Z.to_nat (maxBytes B) - 1)
                        (l ++ repeat 0 (Z.to_nat (maxBytes B) - length l)) 0) = false).
  { destruct (Nat.eq_dec (length l) (Z.to_nat (maxBytes B))) as [He|Hlt].
    - rewrite <- He, Nat.sub_diag. cbn [repeat]. rewrite nth_last_app by exact Hne.
      unfold invalid_final_byte. rewrite Hsm.
      destruct Hok as [Hlt|[Hz|[Hs Hz]]]; [lia| |].
      + rewrite Hz. reflexivity.
      + rewrite Hz, Hs, Z.eqb_refl. cbn. apply andb_false_r.
    - rewrite app_nth2 by lia. rewrite nth_repeat. apply invalid_final_byte_0. }
  rewrite Hinv.
  eexists. reflexivity.
Qed.


Lemma varint_reject_final_byte_witness :
  serializeVarInt_in U32 32
    {| buf := [] ++ [0x80; 0x80; 0x80; 0x80; 0x80] ++ [0x00]; next := length (@nil Z) |}
    0 (2 ^ 32 - 1)
  = (Err InvalidFinalByte,
     {| buf := [] ++ [0x80; 0x80; 0x80; 0x80; 0x80] ++ [0x00];
        next := length (@nil Z) + length [0x80; 0x80; 0x80; 0x80; 0x80] |})
  /\ (exists v,
       let s' := {| buf := [] ++ [0xE5; 0x8E; 0xA6; 0x00] ++ []; next := length (@nil Z) + 4 |} in
       serializeVarInt_in U32 32
         {| buf := [] ++ [0xE5; 0x8E; 0xA6; 0x00] ++ []; next := length (@nil Z) |} 0 (2 ^ 32 - 1)
       = (if (v <? 0) || (2 ^ 32 - 1 <? v)
          then (Err (OutOfRange 0 v (2 ^ 32 - 1)), s') else (Ok v, s'))).
Proof.
  destruct (varint_reject_final_byte U32 32 0 (2 ^ 32 - 1) ltac:(vm_compute; split; congruence))
    as (_ & Hrej & _ & Hacc).
  split.
  - apply Hrej.
    + reflexivity.
    + intros i Hi. do 4 (destruct i as [|i]; [vm_compute; congruence|]). simpl in Hi. lia.
    + left. vm_compute. congruence.
  - apply (Hacc [] [0xE5; 0x8E; 0xA6; 0x00] []).
    + discriminate.
    + vm_compute. lia.
    + intros i Hi. do 3 (destruct i as [|i]; [vm_compute; congruence|]). simpl in Hi. lia.
    + reflexivity.
    + left. vm_compute. lia.
Defined.

(** C5: a value outside [minValue, maxValue] is rejected with the
    out-of-range exception carrying both bounds and the value.  On an output
    stream the test precedes any write: the stream is returned unchanged.  On
    an input stream the test follows the decoding of the bytes: the error
    carries the decoded value and the stream is left after those bytes. *)
Theorem varint_out_of_range (t : ctype) (B minValue maxValue : Z) :
  (forall (out : ostream) (v : Z),
     v < minValue \/ maxValue < v ->
     serializeVarInt_out t B out v minValue maxValue
     = (Err (OutOfRange minValue v maxValue), out))
  /\ (forall (s s' : istream) (v : Z),
     decodeLEB t B s = (Ok v, s') -> v < minValue \/ maxValue < v ->
     serializeVarInt_in t B s minValue maxValue = (Err (OutOfRange minValue v maxValue), s'))
  /\ (forall v, message (OutOfRange minValue v maxValue)
       = ("out-of-range value: " ++ to_string minValue ++ "<=" ++ to_string v
          ++ "<=" ++ to_string maxValue)%string).
Proof.
  split; [|split].
  - intros out v Hv. unfold serializeVarInt_out.
    destruct (Z.ltb_spec v minValue), (Z.ltb_spec maxValue v); try lia; reflexivity.
  - intros s s' v Hd Hv. unfold serializeVarInt_in. rewrite Hd.
    destruct (Z.ltb_spec v minValue), (Z.ltb_spec maxValue v); try lia; reflexivity.
  - intros v. reflexivity.
Qed.

Lemma varint_out_of_range_witness :
  serializeVarInt_out U8 7 [1; 2] 200 0 127 = (Err (OutOfRange 0 200 127), [1; 2])
  /\ serializeVarInt_in U32 8 {| buf := [0xC8; 0x01]; next := 0 |} 0 127
     = (Err (OutOfRange 0 200 127), {| buf := [0xC8; 0x01]; next := 2 |})
  /\ message (OutOfRange 0 200 127) = "out-of-range value: 0<=200<=127"%string.
Proof.
  destruct (varint_out_of_range U8 7 0 127) as [Ho _].
  destruct (varint_out_of_range U32 8 0 127) as [_ [Hi Hm]].
  split; [apply Ho; lia|]. split.
  - apply Hi; [vm_compute; reflexivity | lia].
  - rewrite Hm. vm_compute. reflexivity.
Defined.

(** C7: on a memory input stream over N bytes of which k are consumed,
    [advance n] and [peek n] throw "expected data but found end of stream"
    (leaving the stream as it was) exactly when n > N - k; otherwise
    [advance n] returns the cursor and moves it forward by n, and [peek n]
    returns the cursor and consumes nothing. *)
Theorem memory_stream_advance_peek (bytes : list Z) (k n : nat) :
  (k <= length bytes)%nat ->
  let s := {| buf := bytes; next := k |} in
  advance s n = (if (length bytes - k <? n)%nat then (Err EndOfStream, s)
                 else (Ok k, {| buf := bytes; next := k + n |}))
  /\ peek s n = (if (length bytes - k <? n)%nat then (Err EndOfStream, s) else (Ok k, s))
  /\ message EndOfStream = "expected data but found end of stream"%string.
Proof.
  intros Hk s. unfold advance, peek, s. cbn [buf next].
  assert (E : (length bytes <? k + n)%nat = (length bytes - k <? n)%nat).
  { destruct (Nat.ltb_spec (length bytes) (k + n)), (Nat.ltb_spec (length bytes - k) n);
      try reflexivity; lia. }
  rewrite E. split; [reflexivity|]. split; reflexivity.
Qed.

Lemma memory_stream_advance_peek_witness :
  (1 <= length [1; 2; 3])%nat
  /\ advance {| buf := [1; 2; 3]; next := 1 |} 3
     = (Err EndOfStream, {| buf := [1; 2; 3]; next := 1 |})
  /\ advance {| buf := [1; 2; 3]; next := 1 |} 2
     = (Ok 1%nat, {| buf := [1; 2; 3]; next := 3 |}).
Proof.
  split; [simpl; lia|].
  destruct (memory_stream_advance_peek [1; 2; 3] 1 3 ltac:(simpl; lia)) as [A3 _].
  destruct (memory_stream_advance_peek [1; 2; 3] 1 2 ltac:(simpl; lia)) as [A2 _].
  split; [exact A3 | exact A2].
Defined.

(** C8: unsigned 624485 encodes as varuint32 to E5 8E 26, signed -123456
    encodes as varint32 to C0 BB 78, and the signed loop stops exactly when
    the shifted value is 0 with bit 6 of the group clear or -1 with it set. *)
Theorem varint_encode_examples :
  serializeHelper_out VarUInt32 U32 [] 624485 = (Ok tt, [0xE5; 0x8E; 0x26])
  /\ serializeHelper_out VarInt32 I32 [] (-123456) = (Ok tt, [0xC0; 0xBB; 0x78])
  /\ (forall value outputByte,
        more_flag true value outputByte = false
        <-> (value = 0 /\ Z.land outputByte 64 = 0)
            \/ (value = -1 /\ Z.land outputByte 64 <> 0)).
Proof.
  split; [vm_compute; reflexivity|]. split; [vm_compute; reflexivity|].
  intros value outputByte. unfold more_flag.
  destruct (Z.eqb_spec value 0), (Z.eqb_spec value (-1)), (Z.leb_spec 0 value),
    (Z.ltb_spec value 0), (Z.eqb_spec (Z.land outputByte 64) 0);
    simpl; split; intros; try discriminate; try reflexivity; lia.
Qed.

(** C10 (counterexample): [serializeVarInt<U32,7>] with bounds [0, 255]
    accepts 200 and emits two bytes, more than ⌈7/7⌉ = 1; decoding them with
    the same parameters stops after one byte and rejects it. *)
Lemma varint_encode_exceeds_width :
  serializeVarInt_out U32 7 [] 200 0 255 = (Ok tt, [0xC8; 0x01])
  /\ maxBytes 7 = 1
  /\ serializeVarInt_in U32 7 {| buf := [0xC8; 0x01]; next := 0 |} 0 255
     = (Err InvalidFinalByte, {| buf := [0xC8; 0x01]; next := 1 |}).
Proof. vm_compute. split; [reflexivity|]. split; reflexivity. Qed.

(** C10 (amended): when [minValue] and [maxValue] lie in the B-bit range of
    the [Value] type's signedness (as with every named helper), every value
    in [minValue, maxValue] is encoded in 1 to ⌈B/7⌉ bytes, every byte but
    the last with the continuation bit set and the last with it clear, and a
    decode consumes exactly those bytes and returns the value. *)
Theorem varint_encoding_shape (t : ctype) (B minValue maxValue v : Z) (out rest : list Z) :
  1 <= B <= type_bits t ->
  fits (is_signed t) B minValue -> fits (is_signed t) B maxValue ->
  minValue <= v <= maxValue ->
  exists l, serializeVarInt_out t B out v minValue maxValue = (Ok tt, out ++ l)
    /\ (1 <= length l)%nat /\ Z.of_nat (length l) <= maxBytes B
    /\ (forall i, (S i < length l)%nat -> Z.land (nth i l 0) 128 <> 0)
    /\ Z.land (last l 0) 128 = 0
    /\ serializeVarInt_in t B {| buf := l ++ rest; next := 0 |} minValue maxValue
       = (Ok v, {| buf := l ++ rest; next := length l |}).
Proof.
  intros HB Hmin Hmax Hv.
  assert (Hf : fits (is_signed t) B v)
    by (unfold fits in *; destruct (is_signed t); lia).
  destruct (decode_encode t B v [] rest HB Hf) as (Hlen & Hshape & D).
  cbn [app length] in D.
  destruct (shape_bits _ Hshape) as [Hmid Hlast].
  exists (encode_loop (is_signed t) (Z.to_nat (type_bits t)) v).
  destruct (maxBytes_spec B ltac:(lia)) as (_ & Hm & _).
  split.
  { unfold serializeVarInt_out.
    destruct (Z.ltb_spec v minValue), (Z.ltb_spec maxValue v); try lia; reflexivity. }
  split; [lia|]. split; [lia|]. split; [exact Hmid|]. split; [exact Hlast|].
  unfold serializeVarInt_in. rewrite D.
  destruct (Z.ltb_spec v minValue), (Z.ltb_spec maxValue v); try lia; reflexivity.
Qed.

Lemma varint_encoding_shape_witness :
  exists l, serializeVarInt_out U64 64 [] (2 ^ 64 - 1) 0 (2 ^ 64 - 1) = (Ok tt, [] ++ l)
    /\ (1 <= length l)%nat /\ Z.of_nat (length l) <= maxBytes 64
    /\ (forall i, (S i < length l)%nat -> Z.land (nth i l 0) 128 <> 0)
    /\ Z.land (last l 0) 128 = 0
    /\ serializeVarInt_in U64 64 {| buf := l ++ [5]; next := 0 |} 0 (2 ^ 64 - 1)
       = (Ok (2 ^ 64 - 1), {| buf := l ++ [5]; next := length l |}).
Proof.
  apply varint_encoding_shape.
  - vm_compute. split; congruence.
  - vm_compute. split; congruence.
  - vm_compute. split; congruence.
  - vm_compute. split; congruence.
Defined.

(** ** Address lookup *)

Lemma upper_bound_in {A} (m : list (Z * A)) a k x :
  JIT.upper_bound m a = Some (k, x) -> In (k, x) m /\ a < k.
Proof.
  induction m as [|[k0 x0] r IH]; cbn; [discriminate|].
  destruct (Z.ltb_spec a k0).
  - intros [= <- <-]. auto.
  - intros Hub. destruct (IH Hub). auto.
Qed.

(** In a map whose entries [(k, x)] occupy [[start x, k)] in key order,
    [upper_bound] at an address inside an entry's range finds that entry. *)
Lemma upper_bound_chain {A} (start : A -> Z) (m : list (Z * A)) k x a :
  JIT.disjoint_chain start m = true -> In (k, x) m -> start x <= a < k ->
  JIT.upper_bound m a = Some (k, x).
Proof.
  induction m as [|[k0 x0] r IH]; cbn; [tauto|].
  intros Hc Hin Ha. apply andb_prop in Hc as [Hall Hc].
  destruct Hin as [[= -> ->] | Hin].
  - destruct (Z.ltb_spec a k); [reflexivity | lia].
  - rewrite forallb_forall in Hall. specialize (Hall _ Hin). cbn in Hall.
    apply Z.leb_le in Hall.
    destruct (Z.ltb_spec a k0); [lia|]. auto.
Qed.

Lemma wf_function idx k m k' f :
  JIT.wf idx = true -> In (k, m) idx -> In (k', f) (JIT.addressToFunctionMap m) ->
  JIT.module_ok (k, m) = true /\ JIT.func_ok m (k', f) = true.
Proof.
  unfold JIT.wf. intros Hw Hk Hf. apply andb_prop in Hw as [Hm _].
  rewrite forallb_forall in Hm. specialize (Hm _ Hk). split; [exact Hm|].
  unfold JIT.module_ok in Hm. rewrite !andb_true_iff in Hm.
  destruct Hm as [[[[_ _] _] Hfs] _]. rewrite forallb_forall in Hfs. auto.
Qed.

Lemma wf_function_range idx k m k' f :
  JIT.wf idx = true -> In (k, m) idx -> In (k', f) (JIT.addressToFunctionMap m) ->
  k' = JIT.baseAddress f + JIT.numBytes f /\ 0 < JIT.numBytes f
  /\ JIT.imageBaseAddress m <= JIT.baseAddress f
  /\ JIT.baseAddress f + JIT.numBytes f <= k /\ 0 <= JIT.imageBaseAddress m
  /\ k < 2 ^ 64
  /\ JIT.disjoint_chain JIT.baseAddress (JIT.addressToFunctionMap m) = true.
Proof.
  intros Hw Hk Hf. destruct (wf_function _ _ _ _ _ Hw Hk Hf) as [Hm Hfn].
  unfold JIT.module_ok in Hm. unfold JIT.func_ok in Hfn.
  rewrite !andb_true_iff, ?Z.eqb_eq, ?Z.leb_le, ?Z.ltb_lt in Hm, Hfn.
  repeat match goal with H : _ /\ _ |- _ => destruct H end.
  repeat split; try assumption; lia.
Qed.

Lemma uptr_small x : 0 <= x < 2 ^ 64 -> uptr x = x.
Proof. intros. unfold uptr. apply Z.mod_small. lia. Qed.

(** C3: for every index, [getJITFunctionByAddress a] takes the first module
    entry with key greater than [a] (none if there is none), then that
    module's first function entry with key greater than [a] (none if there is
    none), and returns the function exactly when [a] is in
    [[base, base + length)].  On an index as the loader builds it (entries
    keyed by their end, disjoint, below 2^64), every address inside a loaded
    function finds that function, and an address covered by no loaded
    function, such as the end of a function followed by a gap, finds none. *)
Theorem getJITFunctionByAddress_spec (idx : JIT.index) (a : Z) :
  (forall f, JIT.getJITFunctionByAddress idx a = Some f <->
     exists k m k', JIT.upper_bound idx a = Some (k, m)
       /\ JIT.upper_bound (JIT.addressToFunctionMap m) a = Some (k', f)
       /\ JIT.baseAddress f <= a < uptr (JIT.baseAddress f + JIT.numBytes f))
  /\ (JIT.upper_bound idx a = None -> JIT.getJITFunctionByAddress idx a = None)
  /\ (forall k m, JIT.upper_bound idx a = Some (k, m) ->
        JIT.upper_bound (JIT.addressToFunctionMap m) a = None ->
        JIT.getJITFunctionByAddress idx a = None)
  /\ (JIT.wf idx = true -> forall f, JIT.loaded idx f ->
        JIT.baseAddress f <= a < JIT.baseAddress f + JIT.numBytes f ->
        JIT.getJITFunctionByAddress idx a = Some f)
  /\ (JIT.wf idx = true ->
        (forall f, JIT.loaded idx f ->
           ~ (JIT.baseAddress f <= a < JIT.baseAddress f + JIT.numBytes f)) ->
        JIT.getJITFunctionByAddress idx a = None).
Proof.
  assert (Hspec : forall f, JIT.getJITFunctionByAddress idx a = Some f <->
     exists k m k', JIT.upper_bound idx a = Some (k, m)
       /\ JIT.upper_bound (JIT.addressToFunctionMap m) a = Some (k', f)
       /\ JIT.baseAddress f <= a < uptr (JIT.baseAddress f + JIT.numBytes f)).
  { intros f. unfold JIT.getJITFunctionByAddress. split.
    - destruct (JIT.upper_bound idx a) as [[k m]|] eqn:E1; [|discriminate].
      destruct (JIT.upper_bound (JIT.addressToFunctionMap m) a) as [[k' g]|] eqn:E2;
        [|discriminate].
      destruct (Z.leb_spec (JIT.baseAddress g) a),
               (Z.ltb_spec a (uptr (JIT.baseAddress g + JIT.numBytes g)));
        cbn; intros Hs; try discriminate.
      injection Hs as <-. exists k, m, k'. repeat split; assumption.
    - intros (k & m & k' & -> & -> & Hr).
      destruct (Z.leb_spec (JIT.baseAddress f) a),
               (Z.ltb_spec a (uptr (JIT.baseAddress f + JIT.numBytes f)));
        cbn; try lia; reflexivity. }
  split; [exact Hspec|].
  split; [unfold JIT.getJITFunctionByAddress; intros ->; reflexivity|].
  split; [unfold JIT.getJITFunctionByAddress; intros k m -> ->; reflexivity|].
  split.
  - intros Hw f (k & m & k' & Hk & Hf) Ha.
    destruct (wf_function_range _ _ _ _ _ Hw Hk Hf)
      as (-> & Hn & Hb & He & Hi & Hlt & Hc).
    apply Hspec. exists k, m, (JIT.baseAddress f + JIT.numBytes f).
    split.
    { apply (upper_bound_chain JIT.imageBaseAddress); [|exact Hk|lia].
      unfold JIT.wf in Hw. apply andb_prop in Hw. tauto. }
    split.
    { apply (upper_bound_chain JIT.baseAddress); [exact Hc|exact Hf|lia]. }
    rewrite uptr_small by lia. lia.
  - intros Hw Hnone.
    destruct (JIT.getJITFunctionByAddress idx a) as [f|] eqn:E; [|reflexivity].
    exfalso. destruct (proj1 (Hspec f) eq_refl) as (k & m & k' & Hk & Hf & Ha).
    apply upper_bound_in in Hk as [Hk _]. apply upper_bound_in in Hf as [Hf _].
    destruct (wf_function_range _ _ _ _ _ Hw Hk Hf)
      as (-> & Hn & Hb & He & Hi & Hlt & Hc).
    rewrite uptr_small in Ha by lia.
    apply (Hnone f); [exists k, m, (JIT.baseAddress f + JIT.numBytes f); auto | exact Ha].
Qed.

Lemma getJITFunctionByAddress_spec_witness :
  JIT.getJITFunctionByAddress
    [(8192, {| JIT.imageBaseAddress := 4096; JIT.numImageBytes := 4096;
               JIT.addressToFunctionMap :=
                 [(4112, {| JIT.baseAddress := 4096; JIT.numBytes := 16 |});
                  (4160, {| JIT.baseAddress := 4128; JIT.numBytes := 32 |})] |})]
    4130
  = Some {| JIT.baseAddress := 4128; JIT.numBytes := 32 |}.
Proof.
  refine (proj1 (proj2 (proj2 (proj2 (getJITFunctionByAddress_spec _ 4130)))) _ _ _ _).
  - vm_compute. reflexivity.
  - eexists _, _, _. split; [left; reflexivity | right; left; reflexivity].
  - cbn. lia.
Defined.

(** ** Section allocation *)

Lemma pow2_lt_64 j : 0 <= j < 64 -> 0 < 2 ^ j < 2 ^ 64.
Proof.
  intros. split; [apply Z.pow_pos_nonneg; lia|]. apply Z.pow_lt_mono_r; lia.
Qed.

Lemma roundup_bounds x a : 0 < a -> 0 <= x -> 0 <= (x + a - 1) / a * a <= x + a - 1.
Proof.
  intros Ha Hx. split.
  - apply Z.mul_nonneg_nonneg; [apply Z.div_pos|]; lia.
  - rewrite Z.mul_comm. apply Z.mul_div_le. lia.
Qed.

(** [align] rounds up to a power-of-two multiple when nothing wraps. *)
Lemma align_spec x j :
  0 <= j < 64 -> 0 <= x -> x + 2 ^ j - 1 < 2 ^ 64 ->
  MM.align x (2 ^ j) = (x + 2 ^ j - 1) / 2 ^ j * 2 ^ j.
Proof.
  intros Hj Hx Hb. pose proof (pow2_lt_64 j Hj).
  unfold MM.align. rewrite (uptr_small (x + 2 ^ j - 1)) by lia.
  rewrite (uptr_small (2 ^ j - 1)) by lia.
  rewrite <- Z.shiftr_div_pow2, <- Z.shiftl_mul_pow2 by lia.
  replace (2 ^ j - 1) with (Z.ones j) by (rewrite Z.ones_equiv; lia).
  set (y := x + 2 ^ j - 1).
  assert (Hy : y = Z.land y (Z.ones 64))
    by (rewrite Z.land_ones, Z.mod_small by lia; subst y; lia).
  unfold uptr. rewrite <- Z.land_ones by lia. rewrite Hy. clearbody y.
  apply Z.bits_inj'. intros i Hi.
  rewrite Z.shiftl_spec by lia. rewrite !Z.land_spec, Z.lnot_spec by lia.
  rewrite !Z.testbit_ones by lia.
  destruct (Z.ltb_spec i j).
  - rewrite (Z.testbit_neg_r _ (i - j)) by lia. cbn.
    destruct (Z.leb_spec 0 i); [|lia]. cbn. btauto.
  - rewrite Z.shiftr_spec by lia. rewrite Z.land_spec, Z.testbit_ones by lia.
    replace (i - j + j) with i by lia. cbn.
    destruct (Z.leb_spec 0 i); [|lia]. cbn. btauto.
Qed.

(** C4 (counterexample): with cursor 0, size 1 and alignment 16 the new
    cursor is 16, not 0 + 1: [align] is applied to the size as well. *)
Lemma allocateBytes_rounds_size :
  MM.allocateBytes 12 1 16
    {| MM.baseAddress := 4096; MM.numPages := 1; MM.numCommittedBytes := 0 |}
  = Some (4096, {| MM.baseAddress := 4096; MM.numPages := 1; MM.numCommittedBytes := 16 |}).
Proof. vm_compute. reflexivity. Qed.

(** C4 (amended): for alignment a = 2^j, with no 64-bit wrap-around, an
    allocation of [numBytes] in a section with cursor c returns
    [base + roundup c], sets the cursor to [roundup c + roundup numBytes]
    (both rounded up to a multiple of a), and fails exactly when that cursor
    exceeds [numPages << pageSizeLog2]. *)
Theorem allocateBytes_spec (pageSizeLog2 numBytes j : Z) (s : MM.Section) :
  0 <= j < 64 -> 0 <= pageSizeLog2 ->
  0 <= MM.numPages s -> MM.numPages s * 2 ^ pageSizeLog2 < 2 ^ 64 ->
  0 <= MM.numCommittedBytes s -> 0 <= numBytes ->
  MM.numCommittedBytes s + numBytes + 2 * (2 ^ j - 1) < 2 ^ 64 ->
  MM.allocateBytes pageSizeLog2 numBytes (2 ^ j) s =
  if MM.numPages s * 2 ^ pageSizeLog2
     <? (MM.numCommittedBytes s + 2 ^ j - 1) / 2 ^ j * 2 ^ j
        + (numBytes + 2 ^ j - 1) / 2 ^ j * 2 ^ j
  then None
  else Some (MM.baseAddress s + (MM.numCommittedBytes s + 2 ^ j - 1) / 2 ^ j * 2 ^ j,
             {| MM.baseAddress := MM.baseAddress s; MM.numPages := MM.numPages s;
                MM.numCommittedBytes :=
                  (MM.numCommittedBytes s + 2 ^ j - 1) / 2 ^ j * 2 ^ j
                  + (numBytes + 2 ^ j - 1) / 2 ^ j * 2 ^ j |}).
Proof.
  intros Hj Hl Hp Hps Hc Hn Hb. pose proof (pow2_lt_64 j Hj).
  pose proof (roundup_bounds (MM.numCommittedBytes s) (2 ^ j) ltac:(lia) Hc).
  pose proof (roundup_bounds numBytes (2 ^ j) ltac:(lia) Hn).
  unfold MM.allocateBytes.
  rewrite !align_spec by lia.
  rewrite Z.shiftl_mul_pow2 by lia.
  rewrite (uptr_small (MM.numPages s * 2 ^ pageSizeLog2)).
  2:{ split; [apply Z.mul_nonneg_nonneg; [lia | apply Z.pow_nonneg; lia] | lia]. }
  rewrite uptr_small by lia. reflexivity.
Qed.

Lemma allocateBytes_spec_witness :
  MM.allocateBytes 12 1 (2 ^ 4)
    {| MM.baseAddress := 4096; MM.numPages := 1; MM.numCommittedBytes := 5 |}
  = Some (4112, {| MM.baseAddress := 4096; MM.numPages := 1; MM.numCommittedBytes := 32 |}).
Proof.
  rewrite (allocateBytes_spec 12 1 4) by (cbn; lia).
  vm_compute. reflexivity.
Defined.

(** ** Image reservation *)

(** [shrAndRoundUp] is a ceiling division by the page size when nothing
    wraps. *)
Lemma shrAndRoundUp_spec v s :
  0 <= s < 64 -> 0 <= v -> v + 2 ^ s <= 2 ^ 64 ->
  MM.shrAndRoundUp v s = (v + 2 ^ s - 1) / 2 ^ s.
Proof.
  intros Hs Hv Hb. pose proof (pow2_lt_64 s Hs).
  unfold MM.shrAndRoundUp. rewrite Z.shiftl_1_l.
  rewrite (uptr_small (2 ^ s)) by lia. rewrite uptr_small by lia.
  apply Z.shiftr_div_pow2. lia.
Qed.

(** C6 (counterexample): the page count is computed in 64-bit arithmetic:
    2^64 - 1 code bytes with 4 KiB pages give 0 code pages and no image at
    all, where ⌈(2^64 - 1) / 4096⌉ = 2^52. *)
Lemma reserveAllocationSpace_wraps :
  fst (MM.reserveAllocationSpace 12 false (fun _ => 4096) (fun _ _ => true)
         MM.construct (2 ^ 64 - 1) 16 0 16 0 16) = []
  /\ option_map (fun mm => (MM.numPages (MM.codeSection mm), MM.numAllocatedImagePages mm))
       (snd (MM.reserveAllocationSpace 12 false (fun _ => 4096) (fun _ _ => true)
               MM.construct (2 ^ 64 - 1) 16 0 16 0 16)) = Some (0, 0)
  /\ (2 ^ 64 - 1 + 2 ^ 12 - 1) / 2 ^ 12 = 2 ^ 52.
Proof. vm_compute. split; [reflexivity | split; reflexivity]. Qed.

(** C6 (amended): with pages of 2^s bytes (2 <= s < 64) and byte counts
    [x] (the code count plus 32 under [USE_WINDOWS_SEH]) such that
    [x + 2^s <= 2^64], a successful [reserveAllocationSpace] gives each
    section ⌈x / 2^s⌉ pages and the image their sum; when the sum is not 0
    it allocates and commits that many pages once, at the image base, and
    places the code, read-only and read-write sections at the image base
    and at consecutive page boundaries after it (when the sum is 0 it makes
    no platform call and leaves the image base as it was). *)
Theorem reserveAllocationSpace_spec (s : Z) (seh : bool) (alloc : Z -> Z)
    (commit : Z -> Z -> bool) (mm mm' : MM.ModuleMemoryManager)
    (calls : list MM.platform_call) (nc ca nro roa nrw rwa : Z) :
  2 <= s < 64 -> 0 <= nc -> 0 <= nro -> 0 <= nrw ->
  nc + (if seh then 32 else 0) + 2 ^ s <= 2 ^ 64 ->
  nro + 2 ^ s <= 2 ^ 64 -> nrw + 2 ^ s <= 2 ^ 64 ->
  MM.reserveAllocationSpace s seh alloc commit mm nc ca nro roa nrw rwa = (calls, Some mm') ->
  let cp := (nc + (if seh then 32 else 0) + 2 ^ s - 1) / 2 ^ s in
  let rp := (nro + 2 ^ s - 1) / 2 ^ s in
  let wp := (nrw + 2 ^ s - 1) / 2 ^ s in
  MM.numPages (MM.codeSection mm') = cp
  /\ MM.numPages (MM.readOnlySection mm') = rp
  /\ MM.numPages (MM.readWriteSection mm') = wp
  /\ MM.numAllocatedImagePages mm' = cp + rp + wp
  /\ (cp + rp + wp = 0 -> calls = [] /\ MM.imageBaseAddress mm' = MM.imageBaseAddress mm)
  /\ (0 < cp + rp + wp ->
      calls = [MM.AllocateVirtualPages (cp + rp + wp);
               MM.CommitVirtualPages (MM.imageBaseAddress mm') (cp + rp + wp)]
      /\ MM.imageBaseAddress mm' <> 0
      /\ MM.baseAddress (MM.codeSection mm') = MM.imageBaseAddress mm'
      /\ MM.baseAddress (MM.readOnlySection mm') = MM.baseAddress (MM.codeSection mm') + cp * 2 ^ s
      /\ MM.baseAddress (MM.readWriteSection mm') = MM.baseAddress (MM.readOnlySection mm') + rp * 2 ^ s).
Proof.
  intros Hs Hc Hr Hw Hcb Hrb Hwb H cp rp wp.
  pose proof (pow2_lt_64 s ltac:(lia)) as Hp.
  assert (Hq : 2 ^ s * 2 ^ (64 - s) = 2 ^ 64)
    by (rewrite <- Z.pow_add_r by lia; f_equal; lia).
  assert (H4 : 4 <= 2 ^ s)
    by (change 4 with (2 ^ 2); apply Z.pow_le_mono_r; lia).
  assert (Hseh : (if seh then uptr (nc + 32) else nc) = nc + (if seh then 32 else 0))
    by (destruct seh; [apply uptr_small; lia | lia]).
  assert (Hcp : cp * 2 ^ s <= nc + (if seh then 32 else 0) + 2 ^ s - 1 /\ 0 <= cp).
  { subst cp. pose proof (roundup_bounds (nc + (if seh then 32 else 0)) (2 ^ s)).
    split; [|apply Z.div_pos]; destruct seh; lia. }
  assert (Hrp : rp * 2 ^ s <= nro + 2 ^ s - 1 /\ 0 <= rp).
  { subst rp. pose proof (roundup_bounds nro (2 ^ s)).
    split; [|apply Z.div_pos]; lia. }
  assert (Hwp : wp * 2 ^ s <= nrw + 2 ^ s - 1 /\ 0 <= wp).
  { subst wp. pose proof (roundup_bounds nrw (2 ^ s)).
    split; [|apply Z.div_pos]; lia. }
  assert (Hsum : cp + rp + wp < 2 ^ 64).
  { assert (cp < 2 ^ (64 - s)) by (destruct seh; nia).
    assert (rp < 2 ^ (64 - s)) by nia.
    assert (wp < 2 ^ (64 - s)) by nia.
    nia. }
  unfold MM.reserveAllocationSpace in H. rewrite Hseh in H.
  rewrite !shrAndRoundUp_spec in H by (destruct seh; lia).
  fold cp rp wp in H.
  rewrite (uptr_small (cp + rp + wp)) in H by lia.
  rewrite !Z.shiftl_mul_pow2 in H by lia.
  rewrite (uptr_small (cp * 2 ^ s)), (uptr_small (rp * 2 ^ s)) in H
    by (destruct seh; lia).
  destruct (Z.eqb_spec (cp + rp + wp) 0) as [H0|H0].
  - injection H as <- <-. cbn. repeat split; try reflexivity; lia.
  - destruct (Z.eqb_spec (alloc (cp + rp + wp)) 0); [discriminate|].
    destruct (commit (alloc (cp + rp + wp)) (cp + rp + wp)); cbn in H; [|discriminate].
    injection H as <- <-. cbn. repeat split; try reflexivity; try lia; assumption.
Qed.

Lemma reserveAllocationSpace_spec_witness :
  MM.numPages (MM.codeSection
    (match snd (MM.reserveAllocationSpace 12 true (fun _ => 65536) (fun _ _ => true)
                  MM.construct 5000 16 100 8 0 8) with
     | Some mm => mm | None => MM.construct end)) = 2
  /\ MM.baseAddress (MM.readOnlySection
    (match snd (MM.reserveAllocationSpace 12 true (fun _ => 65536) (fun _ _ => true)
                  MM.construct 5000 16 100 8 0 8) with
     | Some mm => mm | None => MM.construct end)) = 65536 + 2 * 2 ^ 12.
Proof.
  destruct (MM.reserveAllocationSpace 12 true (fun _ => 65536) (fun _ _ => true)
              MM.construct 5000 16 100 8 0 8) as [calls r] eqn:E.
  destruct r as [mm'|]; [|vm_compute in E; discriminate].
  pose proof (reserveAllocationSpace_spec 12 true (fun _ => 65536) (fun _ _ => true)
                MM.construct mm' calls 5000 16 100 8 0 8
                ltac:(lia) ltac:(lia) ltac:(lia) ltac:(lia)
                ltac:(cbn; lia) ltac:(cbn; lia) ltac:(cbn; lia) E) as Hs.
  cbn zeta in Hs.
  destruct Hs as (Hc & _ & _ & _ & _ & Hpos).
  destruct (Hpos ltac:(vm_compute; reflexivity)) as (_ & Hnz & Hcb & Hrb & _).
  assert (Himg : MM.imageBaseAddress mm' = 65536).
  { vm_compute in E. injection E as _ <-. reflexivity. }
  cbn. rewrite Hrb, Hcb, Himg, Hc. split; vm_compute; reflexivity.
Defined.

(** ** Locking of the address-to-module index *)

(** C9 (code bug): the [LoadedModule] destructor and
    [getJITFunctionByAddress] touch [addressToModuleMap] only while holding
    [addressToModuleMapMutex], but the [LoadedModule] constructor emplaces
    its entry without acquiring the mutex. *)
Theorem addressToModuleMap_emplace_unlocked :
  JIT.guarded false JIT.loadedModule_ctor_events = false
  /\ JIT.guarded false JIT.loadedModule_dtor_events = true
  /\ JIT.guarded false JIT.getJITFunctionByAddress_events = true.
Proof. repeat split. Qed.

(* ================================================================== *)
(** * Further properties of the code *)

(** ** The array output stream *)

Lemma aos_inv_init : aos_inv AOS.init.
Proof. unfold aos_inv; cbn; lia. Qed.

Lemma resize_le l n : (n <= length l)%nat -> AOS.resize l n = firstn n l.
Proof.
  intros H. unfold AOS.resize. replace (n - length l)%nat with 0%nat by lia.
  apply app_nil_r.
Qed.

Lemma resize_ge l n : (length l <= n)%nat -> AOS.resize l n = l ++ repeat 0 (n - length l).
Proof. intros H. unfold AOS.resize. rewrite firstn_all2 by lia. reflexivity. Qed.

Lemma resize_length l n : length (AOS.resize l n) = n.
Proof.
  unfold AOS.resize. rewrite length_app, repeat_length, length_firstn. lia.
Qed.

Lemma store_spec l p src :
  (p + length src <= length l)%nat ->
  length (AOS.store l p src) = length l
  /\ firstn (p + length src) (AOS.store l p src) = firstn p l ++ src.
Proof.
  intros H. unfold AOS.store.
  assert (Hp : length (firstn p l) = p) by (rewrite length_firstn; lia).
  split.
  - rewrite !length_app, Hp, length_skipn. lia.
  - rewrite app_assoc, firstn_app, length_app, Hp.
    replace (p + length src - (p + length src))%nat with 0%nat by lia.
    rewrite firstn_O, app_nil_r. apply firstn_all2. rewrite length_app. lia.
Qed.

Lemma firstn_firstn_prefix (l : list Z) n m :
  (n <= m)%nat -> firstn n (firstn m l) = firstn n l.
Proof. intros. rewrite firstn_firstn. f_equal. lia. Qed.

(** One [serializeBytes]: the bytes [getBytes] would return grow by the
    written bytes, and the invariant is kept. *)
Lemma aos_serializeBytes_step s src :
  aos_inv s -> Z.of_nat (AOS.next s + length src) < 2 ^ 60 ->
  aos_inv (AOS.serializeBytes s src)
  /\ AOS.next (AOS.serializeBytes s src) = (AOS.next s + length src)%nat
  /\ fst (AOS.getBytes (AOS.serializeBytes s src)) = fst (AOS.getBytes s) ++ src.
Proof.
  intros [H1 H2] Hb. unfold AOS.serializeBytes, AOS.advance, AOS.getBytes. cbn [fst].
  set (b := AOS.bytes s) in *. set (k := AOS.next s) in *. set (n := length src).
  rewrite (resize_le b k H1).
  destruct (Nat.ltb_spec (length b) (k + n)) as [Hlt|Hge].
  - unfold AOS.extendBuffer. cbn [AOS.bytes AOS.next]. fold b k.
    rewrite (uptr_small (Z.of_nat k + Z.of_nat n)) by lia.
    rewrite (uptr_small (Z.of_nat (length b) * 7)) by lia.
    rewrite (uptr_small (Z.of_nat (length b) * 7 / 5 + 32)).
    2:{ split; [apply Z.add_nonneg_nonneg; [apply Z.div_pos|]; lia|].
        assert (Z.of_nat (length b) * 7 / 5 <= Z.of_nat (length b) * 7 / 1)
          by (apply Z.div_le_compat_l; lia). rewrite Z.div_1_r in *. lia. }
    set (N := Z.max (Z.of_nat k + Z.of_nat n) (Z.of_nat (length b) * 7 / 5 + 32)).
    assert (HN : (k + n <= Z.to_nat N)%nat) by lia.
    assert (HN2 : (5 * Z.to_nat N <= 7 * (k + n) + 160)%nat).
    { assert (Z.of_nat (length b) * 7 / 5 * 5 <= Z.of_nat (length b) * 7)
        by (rewrite Z.mul_comm; apply Z.mul_div_le; lia). lia. }
    set (b1 := AOS.resize b (Z.to_nat N)).
    assert (Hb1 : length b1 = Z.to_nat N) by apply resize_length.
    assert (Hpre : firstn k b1 = firstn k b).
    { unfold b1. rewrite resize_ge by lia. rewrite firstn_app.
      replace (k - length b)%nat with 0%nat by lia. rewrite firstn_O, app_nil_r. reflexivity. }
    destruct (store_spec b1 k src ltac:(lia)) as [Hl Hf].
    unfold aos_inv. cbn [AOS.bytes AOS.next]. rewrite Hl, Hb1.
    split; [lia|]. split; [reflexivity|].
    rewrite resize_le by lia. fold n in Hf. rewrite Hf, Hpre. reflexivity.
  - destruct (store_spec b k src ltac:(lia)) as [Hl Hf].
    unfold aos_inv. cbn [AOS.bytes AOS.next]. fold b k. rewrite Hl.
    split; [lia|]. split; [reflexivity|].
    rewrite resize_le by lia. fold n in Hf. rewrite Hf. reflexivity.
Qed.

Lemma aos_serializeBytes_fold chunks s :
  aos_inv s -> Z.of_nat (AOS.next s + length (concat chunks)) < 2 ^ 60 ->
  aos_inv (fold_left AOS.serializeBytes chunks s)
  /\ AOS.next (fold_left AOS.serializeBytes chunks s) = (AOS.next s + length (concat chunks))%nat
  /\ fst (AOS.getBytes (fold_left AOS.serializeBytes chunks s))
     = fst (AOS.getBytes s) ++ concat chunks.
Proof.
  revert s. induction chunks as [|c r IH]; intros s Hi Hb; cbn [fold_left concat].
  - rewrite app_nil_r. auto.
  - cbn [concat] in Hb. rewrite length_app in Hb.
    destruct (aos_serializeBytes_step s c Hi ltac:(lia)) as (Hi' & Hn & Hg).
    destruct (IH _ Hi') as (Hi'' & Hn' & Hg'); [rewrite Hn; lia|].
    split; [exact Hi''|]. split; [rewrite Hn', Hn, length_app; lia|].
    rewrite Hg', Hg, app_assoc. reflexivity.
Qed.

Lemma encode_loop_length signed fuel v : (length (encode_loop signed fuel v) <= fuel)%nat.
Proof.
  revert v. induction fuel as [|f IH]; intros v; cbn [encode_loop]; [cbn; lia|].
  destruct (more_flag _ _ _); cbn [length]; [specialize (IH (Z.shiftr v 7)); lia | lia].
Qed.

(** X1: writing chunks of bytes to a fresh [ArrayOutputStream] and calling
    [getBytes] returns exactly the chunks, concatenated in order, and the
    buffer it allocates is never more than 7/5 of the bytes written plus 32. *)
Theorem arrayOutputStream_getBytes (chunks : list (list Z)) :
  Z.of_nat (length (concat chunks)) < 2 ^ 60 ->
  fst (AOS.getBytes (fold_left AOS.serializeBytes chunks AOS.init)) = concat chunks
  /\ (5 * length (AOS.bytes (fold_left AOS.serializeBytes chunks AOS.init))
      <= 7 * length (concat chunks) + 160)%nat.
Proof.
  intros Hb.
  destruct (aos_serializeBytes_fold chunks AOS.init aos_inv_init ltac:(cbn; lia))
    as ([_ Hs] & Hn & Hg).
  split; [exact Hg|]. rewrite Hn in Hs. exact Hs.
Qed.

Lemma arrayOutputStream_getBytes_witness :
  fst (AOS.getBytes (fold_left AOS.serializeBytes [[1; 2; 3]; []; [4; 5]] AOS.init))
  = [1; 2; 3; 4; 5]
  /\ (5 * length (AOS.bytes (fold_left AOS.serializeBytes [[1; 2; 3]; []; [4; 5]]%Z AOS.init))
      <= 7 * length (concat [[1; 2; 3]; []; [4; 5]]%Z) + 160)%nat.
Proof. apply (arrayOutputStream_getBytes [[1; 2; 3]; []; [4; 5]]). cbn; lia. Defined.

(** X2: [serializeVarInt] on an [ArrayOutputStream] (one [advance(1)] and
    store per byte) agrees with the list model of the output stream used for
    the codec: the result, and the bytes [getBytes] returns afterwards, are
    those of appending the LEB128 encoding to the bytes already written. *)
Theorem arrayOutputStream_serializeVarInt (t : ctype) (maxBits v minValue maxValue : Z)
    (s : AOS.ArrayOutputStream) :
  aos_inv s -> Z.of_nat (AOS.next s) + 64 < 2 ^ 60 ->
  (fst (AOS.serializeVarInt t maxBits s v minValue maxValue),
   fst (AOS.getBytes (snd (AOS.serializeVarInt t maxBits s v minValue maxValue))))
  = serializeVarInt_out t maxBits (fst (AOS.getBytes s)) v minValue maxValue.
Proof.
  intros Hi Hb. unfold AOS.serializeVarInt, serializeVarInt_out.
  destruct ((v <? minValue) || (maxValue <? v)); [reflexivity|]. cbn [fst snd].
  set (l := encode_loop (is_signed t) (Z.to_nat (type_bits t)) v).
  assert (Hl : (length l <= 64)%nat).
  { pose proof (encode_loop_length (is_signed t) (Z.to_nat (type_bits t)) v).
    pose proof (type_bits_range t). fold l in H. lia. }
  assert (E : fold_left AOS.writeByte l s
              = fold_left AOS.serializeBytes (map (fun b => [b]) l) s).
  { clear. revert s. induction l as [|b r IH]; intros s; [reflexivity|]. apply IH. }
  assert (Hc : concat (map (fun b : Z => [b]) l) = l).
  { clear. induction l as [|b r IH]; cbn; [reflexivity|]. rewrite IH. reflexivity. }
  rewrite E. destruct (aos_serializeBytes_fold (map (fun b => [b]) l) s Hi) as (_ & _ & Hg).
  - rewrite Hc. lia.
  - rewrite Hg, Hc. reflexivity.
Qed.

Lemma arrayOutputStream_serializeVarInt_witness :
  (fst (AOS.serializeVarInt U32 32 (AOS.serializeBytes AOS.init [7]) 624485 0 (2 ^ 32 - 1)),
   fst (AOS.getBytes (snd (AOS.serializeVarInt U32 32 (AOS.serializeBytes AOS.init [7])
                             624485 0 (2 ^ 32 - 1)))))
  = serializeVarInt_out U32 32 (fst (AOS.getBytes (AOS.serializeBytes AOS.init [7])))
      624485 0 (2 ^ 32 - 1).
Proof.
  apply arrayOutputStream_serializeVarInt.
  - unfold aos_inv. vm_compute. lia.
  - vm_compute. reflexivity.
Defined.

(** ** Raw bytes, native values, constants, strings, arrays *)

Lemma le_bytes_length n v : length (le_bytes n v) = n.
Proof. unfold le_bytes. rewrite length_map, length_seq. reflexivity. Qed.

Lemma le_bytes_S n v :
  le_bytes (S n) v = Z.land v 255 :: le_bytes n (Z.shiftr v 8).
Proof.
  unfold le_bytes. cbn [seq map]. rewrite Z.mul_0_r, Z.shiftr_0_r. f_equal.
  rewrite <- seq_shift, map_map. apply map_ext. intros i.
  rewrite Z.shiftr_shiftr by lia. f_equal. f_equal. lia.
Qed.

Lemma le_value_bytes n v : le_value (le_bytes n v) = v mod 2 ^ (8 * Z.of_nat n).
Proof.
  revert v. induction n as [|n IH]; intros v.
  - cbn. rewrite Z.mod_1_r. reflexivity.
  - rewrite le_bytes_S. cbn [le_value]. rewrite IH.
    change 255 with (Z.ones 8). rewrite Z.land_ones, Z.shiftr_div_pow2 by lia.
    replace (8 * Z.of_nat (S n)) with (8 + 8 * Z.of_nat n) by lia.
    rewrite Z.pow_add_r by lia. change (2 ^ 8) with 256.
    rewrite Z.rem_mul_r by (try apply Z.pow_pos_nonneg; lia). lia.
Qed.

Lemma le_bytes_byte n v : Forall (fun b => 0 <= b < 256) (le_bytes n v).
Proof.
  unfold le_bytes. apply Forall_map, Forall_forall. intros i _.
  change 255 with (Z.ones 8). rewrite Z.land_ones by lia.
  apply Z.mod_pos_bound. lia.
Qed.

Lemma nwrap_mod t v : nrange t v -> nwrap t (v mod 2 ^ nbits t) = v.
Proof.
  unfold nrange, nwrap. assert (Hw : 8 <= nbits t) by (destruct t; cbn; lia).
  assert (Hs : 2 ^ nbits t = 2 * 2 ^ (nbits t - 1)).
  { rewrite <- Z.pow_succ_r by lia. f_equal. lia. }
  destruct (nsigned t); intros Hv.
  - rewrite Zplus_mod_idemp_l, Z.mod_small by lia. lia.
  - rewrite Z.mod_mod by lia. apply Z.mod_small. lia.
Qed.

(** Reading back a native value written at any position. *)
Lemma native_roundtrip t v pre rest :
  nrange t v ->
  serializeNative_in {| buf := serializeNative_out pre t v ++ rest; next := length pre |} t
  = (Ok v, {| buf := serializeNative_out pre t v ++ rest; next := (length pre + nsize t)%nat |}).
Proof.
  intros Hv. unfold serializeNative_in, serializeBytes_in, advance, serializeNative_out,
    serializeBytes_out. cbn [buf next].
  rewrite <- app_assoc, !length_app, le_bytes_length.
  destruct (Nat.ltb_spec (length pre + (nsize t + length rest)) (length pre + nsize t)); [lia|].
  rewrite skipn_app, skipn_all2 by lia. rewrite Nat.sub_diag. cbn [skipn app].
  rewrite firstn_app, le_bytes_length, Nat.sub_diag, firstn_O, app_nil_r.
  rewrite firstn_all2 by (rewrite le_bytes_length; lia).
  rewrite le_value_bytes. change (8 * Z.of_nat (nsize t)) with (nbits t).
  rewrite nwrap_mod by exact Hv. reflexivity.
Qed.

(** X3: for each integer type with a [serialize] overload, the [sizeof(T)]
    bytes written by [serialize] on an output stream are little-endian
    two's complement bytes, and [serialize] on an input stream reads the same
    value back, consuming exactly [sizeof(T)] bytes; with fewer bytes left it
    throws "expected data but found end of stream" without moving the
    cursor. *)
Theorem serializeNative_roundtrip (t : ntype) (v : Z) (pre rest : list Z) (s : istream) :
  nrange t v ->
  serializeNative_out pre t v = pre ++ le_bytes (nsize t) v
  /\ Forall (fun b => 0 <= b < 256) (le_bytes (nsize t) v)
  /\ serializeNative_in {| buf := serializeNative_out pre t v ++ rest; next := length pre |} t
     = (Ok v, {| buf := serializeNative_out pre t v ++ rest; next := (length pre + nsize t)%nat |})
  /\ ((length (buf s) < next s + nsize t)%nat -> serializeNative_in s t = (Err EndOfStream, s)).
Proof.
  intros Hv. split; [reflexivity|]. split; [apply le_bytes_byte|].
  split; [apply native_roundtrip; exact Hv|].
  intros Hs. unfold serializeNative_in, serializeBytes_in, advance.
  destruct (Nat.ltb_spec (length (buf s)) (next s + nsize t)); [reflexivity | lia].
Qed.

Lemma serializeNative_roundtrip_witness :
  serializeNative_out [9] NI32 (-5) = [9] ++ le_bytes (nsize NI32) (-5)
  /\ Forall (fun b => 0 <= b < 256) (le_bytes (nsize NI32) (-5))
  /\ serializeNative_in {| buf := serializeNative_out [9] NI32 (-5) ++ [1]; next := length [9] |} NI32
     = (Ok (-5), {| buf := serializeNative_out [9] NI32 (-5) ++ [1];
                    next := (length [9] + nsize NI32)%nat |})
  /\ ((length (buf {| buf := [1; 2]%Z; next := 0 |}) < next {| buf := [1; 2]%Z; next := 0 |} + nsize NI32)%nat ->
      serializeNative_in {| buf := [1; 2]; next := 0 |} NI32 = (Err EndOfStream, {| buf := [1; 2]; next := 0 |})).
Proof. apply serializeNative_roundtrip. cbn. lia. Defined.

(** X4: [serializeConstant] on an input stream reads a [T] and throws
    ["<message>: loaded <saved> but was expecting <constant>"] exactly when
    the value read differs from the constant; either way the cursor has moved
    past the [sizeof(T)] bytes.  In particular what [serializeConstant]
    writes for a constant is accepted when reading it back. *)
Theorem serializeConstant_check (t : ntype) (msg : string) (saved constant : Z) (pre rest : list Z) :
  nrange t saved ->
  serializeConstant_in
    {| buf := serializeConstant_out pre msg t saved ++ rest; next := length pre |} msg t constant
  = (if saved =? constant then None else Some (ConstantMismatch msg saved constant),
     {| buf := serializeConstant_out pre msg t saved ++ rest; next := (length pre + nsize t)%nat |})
  /\ constant_message (ConstantMismatch msg saved constant)
     = (msg ++ ": loaded " ++ to_string saved ++ " but was expecting " ++ to_string constant)%string.
Proof.
  intros Hv. split; [|reflexivity].
  unfold serializeConstant_in, serializeConstant_out. rewrite native_roundtrip by exact Hv.
  destruct (Z.eqb_spec saved constant); reflexivity.
Qed.

Lemma serializeConstant_check_witness :
  serializeConstant_in
    {| buf := serializeConstant_out [] "magic" NU32 1836278016 ++ []; next := length (@nil Z) |}
    "magic" NU32 7
  = (if 1836278016 =? 7 then None else Some (ConstantMismatch "magic" 1836278016 7),
     {| buf := serializeConstant_out [] "magic" NU32 1836278016 ++ [];
        next := (length (@nil Z) + nsize NU32)%nat |})
  /\ constant_message (ConstantMismatch "magic" 1836278016 7)
     = ("magic" ++ ": loaded " ++ to_string 1836278016 ++ " but was expecting " ++ to_string 7)%string.
Proof. apply serializeConstant_check. cbn. lia. Defined.

(** The [size_t] size prefix of strings and arrays: a varuint32. *)
Lemma size_roundtrip (n : Z) (pre rest : list Z) :
  0 <= n < 2 ^ 32 ->
  let l := encode_loop false 64 n in
  (1 <= length l <= 5)%nat
  /\ serializeHelper_out VarUInt32 U64 pre n = (Ok tt, pre ++ l)
  /\ serializeHelper_in VarUInt32 U64 {| buf := pre ++ l ++ rest; next := length pre |}
     = (Ok n, {| buf := pre ++ l ++ rest; next := (length pre + length l)%nat |}).
Proof.
  intros Hn l.
  assert (Hmin : wrap U64 (helper_min VarUInt32) = 0) by reflexivity.
  assert (Hmax : wrap U64 (helper_max VarUInt32) = 2 ^ 32 - 1) by reflexivity.
  destruct (decode_encode U64 32 n pre rest ltac:(cbn; lia) ltac:(cbn; lia))
    as (Hlen & _ & D).
  change (Z.to_nat (maxBytes 32)) with 5%nat in Hlen.
  change (encode_loop (is_signed U64) (Z.to_nat (type_bits U64)) n) with l in *.
  split; [exact Hlen|].
  unfold serializeHelper_out, serializeHelper_in, serializeVarInt_out, serializeVarInt_in.
  rewrite Hmin, Hmax. change (helper_bits VarUInt32) with 32. rewrite D.
  destruct (Z.ltb_spec n 0), (Z.ltb_spec (2 ^ 32 - 1) n); try lia.
  split; reflexivity.
Qed.

(** X5: a [std::string] of fewer than 2^32 bytes is written as its size
    (varuint32, 1 to 5 bytes) followed by its bytes, and reading it from a
    memory input stream gives the same bytes back, consuming exactly what
    was written; when the stream holds fewer bytes than the size read, the
    read throws "expected data but found end of stream", with the cursor
    left just after the size. *)
Theorem string_roundtrip (str pre rest : list Z) :
  Z.of_nat (length str) < 2 ^ 32 ->
  exists sz, (1 <= length sz <= 5)%nat
    /\ serializeString_out pre str = (Ok tt, pre ++ sz ++ str)
    /\ serializeString_in {| buf := pre ++ sz ++ str ++ rest; next := length pre |}
       = (Ok str, {| buf := pre ++ sz ++ str ++ rest;
                     next := (length pre + length sz + length str)%nat |})
    /\ (forall short, (length short < length str)%nat ->
        serializeString_in {| buf := pre ++ sz ++ short; next := length pre |}
        = (Err EndOfStream, {| buf := pre ++ sz ++ short;
                               next := (length pre + length sz)%nat |})).
Proof.
  intros Hn. set (n := Z.of_nat (length str)).
  destruct (size_roundtrip n pre (str ++ rest) ltac:(lia)) as (Hl & Ho & Hi).
  exists (encode_loop false 64 n). split; [exact Hl|].
  split.
  { unfold serializeString_out. fold n. rewrite Ho. unfold serializeBytes_out.
    rewrite app_assoc. reflexivity. }
  split.
  { unfold serializeString_in. rewrite Hi. unfold serializeBytes_in, advance.
    cbn [buf next]. subst n. rewrite Nat2Z.id.
    rewrite !length_app.
    match goal with |- context [Nat.ltb ?a ?b] => destruct (Nat.ltb_spec a b) end; [lia|].
    rewrite app_assoc, skipn_app, skipn_all2 by (rewrite length_app; lia).
    rewrite length_app, Nat.sub_diag. cbn [skipn app].
    rewrite firstn_app, Nat.sub_diag, firstn_O, app_nil_r, firstn_all.
    reflexivity. }
  intros short Hs.
  destruct (size_roundtrip n pre short ltac:(lia)) as (_ & _ & Hi').
  unfold serializeString_in. rewrite Hi'. unfold serializeBytes_in, advance.
  cbn [buf next]. subst n. rewrite Nat2Z.id, !length_app.
  match goal with |- context [Nat.ltb ?a ?b] => destruct (Nat.ltb_spec a b) end; [reflexivity | lia].
Qed.

Lemma string_roundtrip_witness :
  exists sz, (1 <= length sz <= 5)%nat
    /\ serializeString_out [0] [104; 105] = (Ok tt, [0] ++ sz ++ [104; 105])
    /\ serializeString_in {| buf := [0] ++ sz ++ [104; 105] ++ [7]; next := length [0] |}
       = (Ok [104; 105], {| buf := [0] ++ sz ++ [104; 105] ++ [7];
                            next := (length [0] + length sz + length [104; 105])%nat |})
    /\ (forall short, (length short < length [104; 105])%nat ->
        serializeString_in {| buf := [0] ++ sz ++ short; next := length [0] |}
        = (Err EndOfStream, {| buf := [0] ++ sz ++ short;
                               next := (length [0] + length sz)%nat |})).
Proof. apply string_roundtrip. cbn. lia. Defined.

Lemma elements_roundtrip {Element : Type}
    (ser_out : ostream -> Element -> result unit * ostream)
    (ser_in : istream -> result Element * istream) (P : Element -> Prop) :
  (forall x pre rest, P x -> exists enc,
     ser_out pre x = (Ok tt, pre ++ enc)
     /\ ser_in {| buf := pre ++ enc ++ rest; next := length pre |}
        = (Ok x, {| buf := pre ++ enc ++ rest; next := (length pre + length enc)%nat |})) ->
  forall v pre, Forall P v -> exists enc,
    serializeElements_out ser_out pre v = (Ok tt, pre ++ enc)
    /\ forall rest,
       serializeElements_in ser_in (length v) {| buf := pre ++ enc ++ rest; next := length pre |}
       = (Ok v, {| buf := pre ++ enc ++ rest; next := (length pre + length enc)%nat |}).
Proof.
  intros Hcodec v. induction v as [|x r IH]; intros pre Hv.
  - exists []. split; [rewrite app_nil_r; reflexivity|].
    intros rest. cbn. rewrite Nat.add_0_r. reflexivity.
  - inversion Hv as [|? ? Hx Hr]; subst.
    destruct (Hcodec x pre [] Hx) as (e1 & Ho1 & _).
    destruct (IH (pre ++ e1) Hr) as (e2 & Ho2 & Hi2).
    exists (e1 ++ e2). split.
    + cbn [serializeElements_out]. rewrite Ho1, Ho2, app_assoc. reflexivity.
    + intros rest. cbn [serializeElements_in length].
      destruct (Hcodec x pre (e2 ++ rest) Hx) as (e1' & Ho1' & Hi1').
      rewrite Ho1 in Ho1'. injection Ho1' as He. apply app_inv_head in He. subst e1'.
      rewrite <- app_assoc. rewrite Hi1'.
      specialize (Hi2 rest). rewrite <- app_assoc, length_app in Hi2.
      rewrite Hi2, length_app, Nat.add_assoc. reflexivity.
Qed.

(** X6: [serializeArray] round-trips whenever its element serializer does:
    if writing any element [x] with [P x] appends some bytes that reading
    at their position gives back as [x], consuming exactly them, then a
    vector of fewer than 2^32 such elements is written as its size followed
    by the elements in index order, and reading it gives the same vector
    back, consuming exactly what was written. *)
Theorem serializeArray_roundtrip {Element : Type}
    (ser_out : ostream -> Element -> result unit * ostream)
    (ser_in : istream -> result Element * istream) (P : Element -> Prop) :
  (forall x pre rest, P x -> exists enc,
     ser_out pre x = (Ok tt, pre ++ enc)
     /\ ser_in {| buf := pre ++ enc ++ rest; next := length pre |}
        = (Ok x, {| buf := pre ++ enc ++ rest; next := (length pre + length enc)%nat |})) ->
  forall v pre rest, Forall P v -> Z.of_nat (length v) < 2 ^ 32 ->
  exists enc,
    serializeArray_out ser_out pre v = (Ok tt, pre ++ enc)
    /\ serializeArray_in ser_in {| buf := pre ++ enc ++ rest; next := length pre |}
       = (Ok v, {| buf := pre ++ enc ++ rest; next := (length pre + length enc)%nat |}).
Proof.
  intros Hcodec v pre rest Hv Hn.
  set (n := Z.of_nat (length v)).
  set (sz := encode_loop false 64 n).
  destruct (elements_roundtrip ser_out ser_in P Hcodec v (pre ++ sz) Hv) as (e & Ho & Hi).
  exists (sz ++ e). split.
  - unfold serializeArray_out. fold n.
    destruct (size_roundtrip n pre [] ltac:(lia)) as (_ & Hs & _). fold sz in Hs.
    rewrite Hs, Ho, app_assoc. reflexivity.
  - unfold serializeArray_in.
    destruct (size_roundtrip n pre (e ++ rest) ltac:(lia)) as (_ & _ & Hs). fold sz in Hs.
    rewrite <- app_assoc, Hs. subst n. rewrite Nat2Z.id.
    specialize (Hi rest). rewrite <- app_assoc, length_app in Hi.
    rewrite Hi, length_app, Nat.add_assoc. reflexivity.
Qed.

(** [serialize(Stream&, std::vector<uint32>&)]: [serializeArray] with
    [serialize] on each element. *)
Lemma serializeArray_roundtrip_witness :
  exists enc,
    serializeArray_out (fun s x => (Ok tt, serializeNative_out s NU32 x)) [] [1; 70000]
    = (Ok tt, [] ++ enc)
    /\ serializeArray_in (fun s => serializeNative_in s NU32)
         {| buf := [] ++ enc ++ []; next := length (@nil Z) |}
       = (Ok [1; 70000], {| buf := [] ++ enc ++ []; next := (length (@nil Z) + length enc)%nat |}).
Proof.
  apply (serializeArray_roundtrip _ _ (nrange NU32)).
  - intros x pre rest Hx. exists (le_bytes (nsize NU32) x). split; [reflexivity|].
    pose proof (native_roundtrip NU32 x pre rest Hx) as H.
    unfold serializeNative_out, serializeBytes_out in H. rewrite <- app_assoc in H.
    rewrite H, le_bytes_length. reflexivity.
  - repeat constructor; cbn; lia.
  - cbn. lia.
Defined.

(** ** Section allocation and finalization *)

Lemma allocateBytes_step (pageSizeLog2 numBytes j : Z) (s s' : MM.Section) (p : Z) :
  0 <= j < 64 -> 0 <= pageSizeLog2 ->
  0 <= MM.numPages s -> MM.numPages s * 2 ^ pageSizeLog2 < 2 ^ 64 ->
  0 <= MM.numCommittedBytes s -> 0 <= numBytes ->
  MM.numCommittedBytes s + numBytes + 2 * (2 ^ j - 1) < 2 ^ 64 ->
  MM.allocateBytes pageSizeLog2 numBytes (2 ^ j) s = Some (p, s') ->
  let rc := (MM.numCommittedBytes s + 2 ^ j - 1) / 2 ^ j * 2 ^ j in
  let rn := (numBytes + 2 ^ j - 1) / 2 ^ j * 2 ^ j in
  p = MM.baseAddress s + rc /\ MM.numCommittedBytes s' = rc + rn
  /\ MM.numCommittedBytes s <= rc <= MM.numCommittedBytes s + 2 ^ j - 1
  /\ numBytes <= rn <= numBytes + 2 ^ j - 1
  /\ rc + rn <= MM.numPages s * 2 ^ pageSizeLog2
  /\ MM.baseAddress s' = MM.baseAddress s /\ MM.numPages s' = MM.numPages s
  /\ rc mod 2 ^ j = 0.
Proof.
  intros Hj Hl Hp Hps Hc Hn Hb Ha rc rn. pose proof (pow2_lt_64 j Hj).
  pose proof (roundup_bounds (MM.numCommittedBytes s) (2 ^ j) ltac:(lia) Hc).
  pose proof (roundup_bounds numBytes (2 ^ j) ltac:(lia) Hn).
  assert (Hge : forall x, 0 <= x -> x <= (x + 2 ^ j - 1) / 2 ^ j * 2 ^ j).
  { intros x Hx. pose proof (Z.mod_pos_bound (x + 2 ^ j - 1) (2 ^ j) ltac:(lia)).
    pose proof (Z.div_mod (x + 2 ^ j - 1) (2 ^ j) ltac:(lia)). lia. }
  pose proof (Hge _ Hc). pose proof (Hge _ Hn).
  unfold MM.allocateBytes in Ha.
  rewrite !align_spec in Ha by lia. fold rc rn in Ha.
  rewrite Z.shiftl_mul_pow2 in Ha by lia.
  rewrite (uptr_small (MM.numPages s * 2 ^ pageSizeLog2)) in Ha.
  2:{ split; [apply Z.mul_nonneg_nonneg; [lia | apply Z.pow_nonneg; lia] | lia]. }
  rewrite uptr_small in Ha by (unfold rc, rn in *; lia).
  destruct (Z.ltb_spec (MM.numPages s * 2 ^ pageSizeLog2) (rc + rn)); [discriminate|].
  injection Ha as <- <-. cbn [MM.baseAddress MM.numPages MM.numCommittedBytes].
  unfold rc at 8. rewrite Z.mod_mul by lia.
  repeat split; unfold rc, rn in *; lia.
Qed.

(** X7: two successive allocations from one section (power-of-two alignment
    2^j, no 64-bit wrap-around) never overlap: the first lies at or after the
    old cursor, the second starts at or after the end of the first, both end
    inside the section's reserved pages, and each is aligned when the
    section's base is. *)
Theorem allocateBytes_disjoint (pageSizeLog2 j n1 n2 p1 p2 : Z) (s s1 s2 : MM.Section) :
  0 <= j < 64 -> 0 <= pageSizeLog2 ->
  0 <= MM.numPages s -> MM.numPages s * 2 ^ pageSizeLog2 < 2 ^ 64 ->
  0 <= MM.numCommittedBytes s -> 0 <= n1 -> 0 <= n2 ->
  MM.numCommittedBytes s + n1 + n2 + 4 * (2 ^ j - 1) < 2 ^ 64 ->
  MM.allocateBytes pageSizeLog2 n1 (2 ^ j) s = Some (p1, s1) ->
  MM.allocateBytes pageSizeLog2 n2 (2 ^ j) s1 = Some (p2, s2) ->
  MM.baseAddress s + MM.numCommittedBytes s <= p1
  /\ p1 + n1 <= p2
  /\ p2 + n2 <= MM.baseAddress s + MM.numPages s * 2 ^ pageSizeLog2
  /\ (MM.baseAddress s mod 2 ^ j = 0 -> p1 mod 2 ^ j = 0 /\ p2 mod 2 ^ j = 0).
Proof.
  intros Hj Hl Hp Hps Hc Hn1 Hn2 Hb A1 A2.
  pose proof (pow2_lt_64 j Hj).
  destruct (allocateBytes_step pageSizeLog2 n1 j s s1 p1 Hj Hl Hp Hps Hc Hn1
              ltac:(lia) A1) as (E1 & C1 & R1 & N1 & L1 & B1 & P1 & M1).
  destruct (allocateBytes_step pageSizeLog2 n2 j s1 s2 p2 Hj Hl ltac:(lia)
              ltac:(rewrite P1; lia) ltac:(rewrite C1; lia) Hn2
              ltac:(rewrite C1; lia) A2) as (E2 & C2 & R2 & N2 & L2 & B2 & P2 & M2).
  rewrite B1 in E2. rewrite P1 in L2. rewrite C1 in *.
  set (a := 2 ^ j) in *.
  split; [lia|]. split; [lia|]. split; [lia|].
  intros Hbase. rewrite E1, E2.
  split; rewrite Z.add_mod by lia; rewrite Hbase;
    [rewrite M1 | rewrite M2]; apply Z.mod_0_l; lia.
Qed.

Lemma allocateBytes_disjoint_witness :
  4096 + 0 <= 4096
  /\ 4096 + 5 <= 4112
  /\ 4112 + 100 <= 4096 + 1 * 2 ^ 12
  /\ (4096 mod 2 ^ 4 = 0 -> 4096 mod 2 ^ 4 = 0 /\ 4112 mod 2 ^ 4 = 0).
Proof.
  apply (allocateBytes_disjoint 12 4 5 100 4096 4112
           {| MM.baseAddress := 4096; MM.numPages := 1; MM.numCommittedBytes := 0 |}
           {| MM.baseAddress := 4096; MM.numPages := 1; MM.numCommittedBytes := 16 |}
           {| MM.baseAddress := 4096; MM.numPages := 1; MM.numCommittedBytes := 128 |});
    try (cbn; lia); vm_compute; reflexivity.
Defined.

(** The layout [reserveAllocationSpace] leaves (shared by the properties
    below). *)
Lemma reserveAllocationSpace_layout (s : Z) (seh : bool) (alloc : Z -> Z)
    (commit : Z -> Z -> bool) (mm mm' : MM.ModuleMemoryManager)
    (calls : list MM.platform_call) (nc ca nro roa nrw rwa : Z) :
  2 <= s < 64 -> 0 <= nc -> 0 <= nro -> 0 <= nrw ->
  nc + (if seh then 32 else 0) + 2 ^ s <= 2 ^ 64 ->
  nro + 2 ^ s <= 2 ^ 64 -> nrw + 2 ^ s <= 2 ^ 64 ->
  MM.reserveAllocationSpace s seh alloc commit mm nc ca nro roa nrw rwa = (calls, Some mm') ->
  let cp := (nc + (if seh then 32 else 0) + 2 ^ s - 1) / 2 ^ s in
  let rp := (nro + 2 ^ s - 1) / 2 ^ s in
  let wp := (nrw + 2 ^ s - 1) / 2 ^ s in
  MM.numPages (MM.codeSection mm') = cp
  /\ MM.numPages (MM.readOnlySection mm') = rp
  /\ MM.numPages (MM.readWriteSection mm') = wp
  /\ MM.numAllocatedImagePages mm' = cp + rp + wp
  /\ (cp + rp + wp = 0 -> calls = [] /\ MM.imageBaseAddress mm' = MM.imageBaseAddress mm)
  /\ (0 < cp + rp + wp ->
      calls = [MM.AllocateVirtualPages (cp + rp + wp);
               MM.CommitVirtualPages (MM.imageBaseAddress mm') (cp + rp + wp)]
      /\ MM.imageBaseAddress mm' <> 0
      /\ MM.baseAddress (MM.codeSection mm') = MM.imageBaseAddress mm'
      /\ MM.baseAddress (MM.readOnlySection mm') = MM.baseAddress (MM.codeSection mm') + cp * 2 ^ s
      /\ MM.baseAddress (MM.readWriteSection mm') = MM.baseAddress (MM.readOnlySection mm') + rp * 2 ^ s).
Proof.
  intros Hs Hc Hr Hw Hcb Hrb Hwb H cp rp wp.
  pose proof (pow2_lt_64 s ltac:(lia)) as Hp.
  assert (Hq : 2 ^ s * 2 ^ (64 - s) = 2 ^ 64)
    by (rewrite <- Z.pow_add_r by lia; f_equal; lia).
  assert (H4 : 4 <= 2 ^ s)
    by (change 4 with (2 ^ 2); apply Z.pow_le_mono_r; lia).
  assert (Hseh : (if seh then uptr (nc + 32) else nc) = nc + (if seh then 32 else 0))
    by (destruct seh; [apply uptr_small; lia | lia]).
  assert (Hcp : cp * 2 ^ s <= nc + (if seh then 32 else 0) + 2 ^ s - 1 /\ 0 <= cp).
  { subst cp. pose proof (roundup_bounds (nc + (if seh then 32 else 0)) (2 ^ s)).
    split; [|apply Z.div_pos]; destruct seh; lia. }
  assert (Hrp : rp * 2 ^ s <= nro + 2 ^ s - 1 /\ 0 <= rp).
  { subst rp. pose proof (roundup_bounds nro (2 ^ s)).
    split; [|apply Z.div_pos]; lia. }
  assert (Hwp : wp * 2 ^ s <= nrw + 2 ^ s - 1 /\ 0 <= wp).
  { subst wp. pose proof (roundup_bounds nrw (2 ^ s)).
    split; [|apply Z.div_pos]; lia. }
  assert (Hsum : cp + rp + wp < 2 ^ 64).
  { assert (cp < 2 ^ (64 - s)) by (destruct seh; nia).
    assert (rp < 2 ^ (64 - s)) by nia.
    assert (wp < 2 ^ (64 - s)) by nia.
    nia. }
  unfold MM.reserveAllocationSpace in H. rewrite Hseh in H.
  rewrite !shrAndRoundUp_spec in H by (destruct seh; lia).
  fold cp rp wp in H.
  rewrite (uptr_small (cp + rp + wp)) in H by lia.
  rewrite !Z.shiftl_mul_pow2 in H by lia.
  rewrite (uptr_small (cp * 2 ^ s)), (uptr_small (rp * 2 ^ s)) in H
    by (destruct seh; lia).
  destruct (Z.eqb_spec (cp + rp + wp) 0) as [H0|H0].
  - injection H as <- <-. cbn. repeat split; try reflexivity; lia.
  - destruct (Z.eqb_spec (alloc (cp + rp + wp)) 0); [discriminate|].
    destruct (commit (alloc (cp + rp + wp)) (cp + rp + wp)); cbn in H; [|discriminate].
    injection H as <- <-. cbn. repeat split; try reflexivity; try lia; assumption.
Qed.

(** X8: after a successful [reserveAllocationSpace] of a non-empty image
    (bounds as for C6), [reallyFinalizeMemory] asks the platform to protect
    exactly the non-empty sections, in the order code (execute), read-only,
    read-write, as consecutive page ranges from the image base; if the
    platform accepts every call, the manager is finalized with its sections
    unchanged, otherwise the calls stop at the first refusal, which is fatal. *)
Theorem reserve_then_finalize (s : Z) (seh : bool) (alloc : Z -> Z)
    (commit : Z -> Z -> bool) (setAccess : Z -> Z -> FIN.MemoryAccess -> bool)
    (mm mm' : MM.ModuleMemoryManager)
    (calls : list MM.platform_call) (nc ca nro roa nrw rwa : Z) :
  2 <= s < 64 -> 0 <= nc -> 0 <= nro -> 0 <= nrw ->
  nc + (if seh then 32 else 0) + 2 ^ s <= 2 ^ 64 ->
  nro + 2 ^ s <= 2 ^ 64 -> nrw + 2 ^ s <= 2 ^ 64 ->
  MM.reserveAllocationSpace s seh alloc commit mm nc ca nro roa nrw rwa = (calls, Some mm') ->
  let cp := (nc + (if seh then 32 else 0) + 2 ^ s - 1) / 2 ^ s in
  let rp := (nro + 2 ^ s - 1) / 2 ^ s in
  let wp := (nrw + 2 ^ s - 1) / 2 ^ s in
  0 < cp + rp + wp ->
  let img := MM.imageBaseAddress mm' in
  let expected :=
    filter (fun c => negb (snd (fst c) =? 0))
      [(img, cp, FIN.execute); (img + cp * 2 ^ s, rp, FIN.readOnly);
       (img + cp * 2 ^ s + rp * 2 ^ s, wp, FIN.readWrite)] in
  let accept := fun c : Z * Z * FIN.MemoryAccess => setAccess (fst (fst c)) (snd (fst c)) (snd c) in
  let accepted := forallb accept expected in
  (accepted = true ->
   FIN.reallyFinalizeMemory setAccess mm' =
     (expected, Some {| MM.imageBaseAddress := img;
                        MM.numAllocatedImagePages := MM.numAllocatedImagePages mm';
                        MM.isFinalized := true;
                        MM.codeSection := MM.codeSection mm';
                        MM.readOnlySection := MM.readOnlySection mm';
                        MM.readWriteSection := MM.readWriteSection mm' |}))
  /\ (accepted = false ->
      snd (FIN.reallyFinalizeMemory setAccess mm') = None
      /\ exists pre c rest, expected = pre ++ c :: rest
         /\ forallb accept pre = true /\ accept c = false
         /\ fst (FIN.reallyFinalizeMemory setAccess mm') = pre ++ [c]).
Proof.
  intros Hs Hc Hr Hw Hcb Hrb Hwb H cp rp wp Hpos img expected accept accepted.
  destruct (reserveAllocationSpace_layout s seh alloc commit mm mm' calls
              nc ca nro roa nrw rwa Hs Hc Hr Hw Hcb Hrb Hwb H)
    as (Pc & Pr & Pw & _ & _ & Hl).
  fold cp rp wp in Pc, Pr, Pw, Hl.
  destruct (Hl Hpos) as (_ & _ & Bc & Br & Bw).
  rewrite Br, Bc in Bw. rewrite Bc in Br.
  unfold accepted, accept, expected; clear accepted accept expected.
  unfold FIN.reallyFinalizeMemory, FIN.protect.
  rewrite Pc, Pr, Pw, Bc, Br, Bw. fold img.
  cbn [filter fst snd].
  let fin := fun _ =>
    do 2 eexists; (split; [reflexivity|]);
    (split; [cbn; repeat match goal with
                         | E : setAccess ?a ?b ?c = true |- context [setAccess ?a ?b ?c] =>
                             rewrite E
                         end; reflexivity|]);
    (split; [cbn; assumption | reflexivity]) in
  destruct (cp =? 0), (rp =? 0), (wp =? 0); cbn [filter fst snd negb forallb app];
    repeat match goal with
    | |- context [setAccess ?a ?b ?c] =>
        let E := fresh "E" in destruct (setAccess a b c) eqn:E
    end; cbn; split; intros Hacc; try discriminate; try reflexivity;
    split; try reflexivity;
    first [ exists []; fin ()
          | exists [(img, cp, FIN.execute)]; fin ()
          | exists [(img + cp * 2 ^ s, rp, FIN.readOnly)]; fin ()
          | exists [(img, cp, FIN.execute); (img + cp * 2 ^ s, rp, FIN.readOnly)]; fin () ].
Qed.

Lemma reserve_then_finalize_witness :
  fst (FIN.reallyFinalizeMemory (fun _ _ _ => true)
         (match snd (MM.reserveAllocationSpace 12 true (fun _ => 65536) (fun _ _ => true)
                       MM.construct 5000 16 100 8 0 8) with
          | Some mm => mm | None => MM.construct end))
  = [(65536, 2, FIN.execute); (65536 + 2 * 2 ^ 12, 1, FIN.readOnly)].
Proof.
  destruct (MM.reserveAllocationSpace 12 true (fun _ => 65536) (fun _ _ => true)
              MM.construct 5000 16 100 8 0 8) as [calls r] eqn:E.
  destruct r as [mm'|]; [|vm_compute in E; discriminate].
  pose proof (reserve_then_finalize 12 true (fun _ => 65536) (fun _ _ => true)
                (fun _ _ _ => true) MM.construct mm' calls 5000 16 100 8 0 8
                ltac:(lia) ltac:(lia) ltac:(lia) ltac:(lia)
                ltac:(cbn; lia) ltac:(cbn; lia) ltac:(cbn; lia) E
                ltac:(vm_compute; reflexivity)) as T.
  vm_compute in E. injection E as _ Hm. subst mm'.
  cbn zeta in T. destruct T as [T _].
  cbn [snd]. rewrite T by (vm_compute; reflexivity). vm_compute. reflexivity.
Defined.

(** ** EH-frame registration *)

Lemma eh_run_paired (image pages : Z) (ops : list EH.op) :
  forall st,
  EH.paired (eh_pending st)
    (fst (EH.run false image st ops) ++ EH.destroy image pages (snd (EH.run false image st ops)))
  = EH.single_registration (EH.hasRegisteredEHFrames st) ops.
Proof.
  induction ops as [|o ops IH]; intros st.
  - cbn [EH.run fst snd app EH.single_registration].
    unfold EH.destroy, EH.deregisterEHFrames, eh_pending.
    destruct (EH.hasRegisteredEHFrames st); cbn; rewrite ?Z.eqb_refl; reflexivity.
  - cbn [EH.run EH.single_registration]. destruct o as [a n|].
    + unfold EH.registerEHFrames. cbn [negb].
      match goal with
      | |- context [EH.run false image ?st1 ops] =>
          specialize (IH st1); destruct (EH.run false image st1 ops) as [c st'] eqn:E
      end.
      cbn in IH |- *. unfold eh_pending.
      destruct (EH.hasRegisteredEHFrames st); [reflexivity | exact IH].
    + unfold EH.deregisterEHFrames, eh_pending in *.
      destruct (EH.hasRegisteredEHFrames st) eqn:Hh.
      * match goal with
        | |- context [EH.run false image ?st1 ops] =>
            specialize (IH st1); destruct (EH.run false image st1 ops) as [c st'] eqn:E
        end.
        cbn in IH |- *. rewrite !Z.eqb_refl. exact IH.
      * specialize (IH st). rewrite Hh in IH.
        destruct (EH.run false image st ops) as [c st'] eqn:E. exact IH.
Qed.

Lemma eh_run_seh (image : Z) (ops : list EH.op) :
  forall st, EH.hasRegisteredEHFrames st = false -> EH.run true image st ops = ([], st).
Proof.
  induction ops as [|o ops IH]; intros st Hh; [reflexivity|].
  cbn [EH.run]. destruct o as [a n|].
  - cbn. rewrite (IH st Hh). reflexivity.
  - unfold EH.deregisterEHFrames. rewrite Hh, (IH st Hh). reflexivity.
Qed.

(** X9: for any sequence of [registerEHFrames] / [deregisterEHFrames] calls
    the loader makes on a fresh memory manager, followed by its destructor,
    the platform calls are well paired (every deregistration is of the
    pending registration, at most once, and nothing is registered at
    [decommitVirtualPages]) exactly when [USE_WINDOWS_SEH] is set or the
    loader never registers again while a registration is pending: a second
    registration overwrites the saved one, so e.g. two registrations give
    [Register 1 1; Register 2 2; Deregister 2 2; Decommit], with the first
    registration never deregistered.  The decommit is always the last call,
    and under [USE_WINDOWS_SEH] the only one. *)
Theorem ehFrames_paired (seh : bool) (image pages : Z) (ops : list EH.op) :
  let '(calls, st) := EH.run seh image EH.init ops in
  let trace := calls ++ EH.destroy image pages st in
  (EH.paired None trace = true <-> seh = true \/ EH.single_registration false ops = true)
  /\ (exists pre, trace = pre ++ [EH.DecommitVirtualPages image pages])
  /\ (seh = true -> trace = [EH.DecommitVirtualPages image pages]).
Proof.
  destruct seh.
  - rewrite eh_run_seh by reflexivity. cbn.
    split; [tauto|]. split; [exists []; reflexivity | reflexivity].
  - pose proof (eh_run_paired image pages ops EH.init) as P.
    destruct (EH.run false image EH.init ops) as [calls st] eqn:E.
    cbn [fst snd] in P. cbn [eh_pending EH.init EH.hasRegisteredEHFrames] in P.
    split; [rewrite P; split; [auto | intros [H|H]; [discriminate | exact H]]|].
    split; [|discriminate].
    exists (calls ++ fst (EH.deregisterEHFrames image st)).
    unfold EH.destroy. rewrite app_assoc. reflexivity.
Qed.

(** ** The module index: loading and unloading *)

Lemma emplace_in {A} (m : list (Z * A)) k v e :
  In e (IDX.emplace m k v) -> e = (k, v) \/ In e m.
Proof.
  induction m as [|[k0 v0] r IH]; cbn; [intros [<-|[]]; auto|].
  destruct (Z.ltb_spec k k0) as [Hlt|Hge]; [intros [<-|Hi]; auto|].
  destruct (Z.eqb_spec k k0); [auto|].
  intros [<-|Hi]; [auto|]. destruct (IH Hi); auto.
Qed.

Lemma emplace_absent {A} (m : list (Z * A)) k v :
  (forall v', ~ In (k, v') m) ->
  forall e, In e (IDX.emplace m k v) <-> e = (k, v) \/ In e m.
Proof.
  intros Hk e. split; [apply emplace_in|].
  induction m as [|[k0 v0] r IH]; cbn; [intros [->|[]]; left; reflexivity|].
  destruct (Z.ltb_spec k k0); [cbn; intros [->|Hi]; [left; reflexivity | right; exact Hi]|].
  destruct (Z.eqb_spec k k0) as [->|]; [exfalso; apply (Hk v0); left; reflexivity|].
  intros [->|[<-|Hi]]; cbn.
  - right. apply IH; [intros v' Hv; apply (Hk v'); right; exact Hv | left; reflexivity].
  - left. reflexivity.
  - right. apply IH; [intros v' Hv; apply (Hk v'); right; exact Hv | right; exact Hi].
Qed.

Lemma emplace_chain {A} (start : A -> Z) (m : list (Z * A)) k v :
  JIT.disjoint_chain start m = true ->
  Forall (fun e => start (snd e) < fst e) m ->
  start v < k ->
  (forall k' v', In (k', v') m -> k' <= start v \/ k <= start v') ->
  JIT.disjoint_chain start (IDX.emplace m k v) = true.
Proof.
  induction m as [|[k0 v0] r IH]; intros Hc Hs Hv Hd; [reflexivity|].
  cbn in Hc. apply andb_prop in Hc as [Hall Hc].
  rewrite forallb_forall in Hall.
  inversion Hs as [|? ? Hs0 Hsr]; subst. cbn in Hs0.
  cbn [IDX.emplace].
  destruct (Z.ltb_spec k k0).
  - cbn [JIT.disjoint_chain forallb snd]. rewrite Hc.
    rewrite !andb_true_iff, !forallb_forall. repeat split.
    + apply Z.leb_le. destruct (Hd k0 v0 (or_introl eq_refl)); lia.
    + intros [k1 v1] H1. apply Z.leb_le. cbn.
      specialize (Hall _ H1). apply Z.leb_le in Hall. cbn in Hall.
      rewrite Forall_forall in Hsr. specialize (Hsr _ H1). cbn in Hsr.
      destruct (Hd k1 v1 (or_intror H1)); lia.
    + exact Hall.
  - destruct (Z.eqb_spec k k0).
    + cbn [JIT.disjoint_chain]. rewrite Hc, andb_true_r. apply forallb_forall. exact Hall.
    + cbn [JIT.disjoint_chain]. apply andb_true_intro. split.
      * apply forallb_forall. intros e He. destruct (emplace_in _ _ _ _ He) as [->|He'].
        -- apply Z.leb_le. cbn. destruct (Hd k0 v0 (or_introl eq_refl)); lia.
        -- exact (Hall e He').
      * apply IH; auto. intros k' v' H'. apply Hd. right. exact H'.
Qed.

Lemma chain_pair {A} (start : A -> Z) (m : list (Z * A)) k1 x1 k2 x2 :
  JIT.disjoint_chain start m = true -> In (k1, x1) m -> In (k2, x2) m -> k1 <> k2 ->
  k1 <= start x2 \/ k2 <= start x1.
Proof.
  induction m as [|[k0 x0] r IH]; cbn; [tauto|].
  intros Hc H1 H2 Hne. apply andb_prop in Hc as [Hall Hc].
  rewrite forallb_forall in Hall.
  destruct H1 as [[= <- <-]|H1], H2 as [[= <- <-]|H2].
  - congruence.
  - left. apply Z.leb_le. exact (Hall _ H2).
  - right. apply Z.leb_le. exact (Hall _ H1).
  - auto.
Qed.

Lemma chain_nodup {A} (start : A -> Z) (m : list (Z * A)) :
  JIT.disjoint_chain start m = true ->
  Forall (fun e => start (snd e) < fst e) m ->
  NoDup (map fst m).
Proof.
  induction m as [|[k0 x0] r IH]; cbn; [constructor|].
  intros Hc Hs. apply andb_prop in Hc as [Hall Hc].
  rewrite forallb_forall in Hall. inversion Hs as [|? ? Hs0 Hsr]; subst.
  constructor; [|auto].
  intros Hin. apply in_map_iff in Hin as [[k1 x1] [Hk H1]]. cbn in Hk; subst k1.
  specialize (Hall _ H1). apply Z.leb_le in Hall. cbn in Hall.
  rewrite Forall_forall in Hsr. specialize (Hsr _ H1). cbn in Hsr. lia.
Qed.

Lemma erase_find_exists {A} (m : list (Z * A)) k v :
  In (k, v) m -> exists m', IDX.erase_find m k = Some m'.
Proof.
  induction m as [|[k0 v0] r IH]; cbn; [tauto|].
  destruct (Z.eqb_spec k k0); [eauto|].
  intros [[= -> ->]|H]; [congruence|].
  destruct (IH H) as [m' ->]. eexists. reflexivity.
Qed.

Lemma erase_find_incl {A} (m m' : list (Z * A)) k e :
  IDX.erase_find m k = Some m' -> In e m' -> In e m.
Proof.
  revert m'. induction m as [|[k0 v0] r IH]; cbn; intros m'; [discriminate|].
  destruct (Z.eqb_spec k k0); [intros [= <-]; auto|].
  destruct (IDX.erase_find r k) as [r'|] eqn:E; cbn; [|discriminate].
  intros [= <-] [<-|Hi]; [left; reflexivity | right; eauto].
Qed.

Lemma erase_find_keeps {A} (m m' : list (Z * A)) k e :
  IDX.erase_find m k = Some m' -> In e m -> fst e <> k -> In e m'.
Proof.
  revert m'. induction m as [|[k0 v0] r IH]; cbn; intros m'; [discriminate|].
  destruct (Z.eqb_spec k k0) as [->|].
  - intros [= <-] [<-|H] Hne; [cbn in Hne; congruence | exact H].
  - destruct (IDX.erase_find r k) as [r'|] eqn:E; cbn; [|discriminate].
    intros [= <-] [<-|H] Hne; [left; reflexivity | right; eauto].
Qed.

Lemma erase_find_removes {A} (m m' : list (Z * A)) k e :
  NoDup (map fst m) -> IDX.erase_find m k = Some m' -> In e m' -> fst e <> k.
Proof.
  revert m'. induction m as [|[k0 v0] r IH]; cbn; intros m'; [discriminate|].
  intros Hn. inversion Hn as [|? ? Hk0 Hr]; subst.
  destruct (Z.eqb_spec k k0) as [->|].
  - intros [= <-] He Heq. apply Hk0. apply in_map_iff. eauto.
  - destruct (IDX.erase_find r k) as [r'|] eqn:E; cbn; [|discriminate].
    intros [= <-] [<-|H]; [cbn; congruence | eauto].
Qed.

Lemma erase_find_chain {A} (start : A -> Z) (m m' : list (Z * A)) k :
  IDX.erase_find m k = Some m' ->
  JIT.disjoint_chain start m = true -> JIT.disjoint_chain start m' = true.
Proof.
  revert m'. induction m as [|[k0 v0] r IH]; cbn; intros m'; [discriminate|].
  intros Hm Hc. apply andb_prop in Hc as [Hall Hc].
  destruct (Z.eqb_spec k k0).
  - injection Hm as <-. exact Hc.
  - destruct (IDX.erase_find r k) as [r'|] eqn:E; cbn in Hm; [|discriminate].
    injection Hm as <-. cbn. apply andb_true_intro. split; [|eauto].
    rewrite forallb_forall in Hall |- *. intros e He. apply Hall.
    exact (erase_find_incl _ _ _ _ E He).
Qed.

Lemma emplace_twice {A} (m : list (Z * A)) k v w :
  IDX.emplace (IDX.emplace m k v) k w = IDX.emplace m k v.
Proof.
  induction m as [|[k0 v0] r IH]; cbn.
  - rewrite Z.ltb_irrefl, Z.eqb_refl. reflexivity.
  - destruct (Z.ltb_spec k k0).
    + cbn. rewrite Z.ltb_irrefl, Z.eqb_refl. reflexivity.
    + destruct (Z.eqb_spec k k0) as [->|].
      * cbn. rewrite Z.ltb_irrefl, Z.eqb_refl. reflexivity.
      * cbn. destruct (Z.ltb_spec k k0); [lia|].
        destruct (Z.eqb_spec k k0); [congruence|]. rewrite IH. reflexivity.
Qed.

Lemma erase_find_emplace {A} (m : list (Z * A)) k v :
  (forall v', ~ In (k, v') m) -> IDX.erase_find (IDX.emplace m k v) k = Some m.
Proof.
  induction m as [|[k0 v0] r IH]; intros Hk; cbn.
  - rewrite Z.eqb_refl. reflexivity.
  - destruct (Z.ltb_spec k k0).
    + cbn. rewrite Z.eqb_refl. reflexivity.
    + destruct (Z.eqb_spec k k0) as [->|].
      * exfalso. apply (Hk v0). left. reflexivity.
      * cbn. destruct (Z.eqb_spec k k0); [congruence|].
        rewrite IH; [reflexivity|]. intros v' Hv. apply (Hk v'). right. exact Hv.
Qed.

Lemma erase_find_absent {A} (m : list (Z * A)) k :
  (forall v', ~ In (k, v') m) -> IDX.erase_find m k = None.
Proof.
  induction m as [|[k0 v0] r IH]; intros Hk; cbn; [reflexivity|].
  destruct (Z.eqb_spec k k0) as [->|].
  - exfalso. apply (Hk v0). left. reflexivity.
  - rewrite IH; [reflexivity|]. intros v' Hv. apply (Hk v'). right. exact Hv.
Qed.

(** Lookups on an index as the loader builds it (the reasoning of C3, shared
    by the properties below). *)
Lemma lookup_loaded (idx : JIT.index) (a : Z) (f : JIT.JITFunction) :
  JIT.wf idx = true -> JIT.loaded idx f ->
  JIT.baseAddress f <= a < JIT.baseAddress f + JIT.numBytes f ->
  JIT.getJITFunctionByAddress idx a = Some f.
Proof.
  intros Hw (k & m & k' & Hk & Hf) Ha.
  destruct (wf_function_range _ _ _ _ _ Hw Hk Hf)
    as (-> & Hn & Hb & He & Hi & Hlt & Hc).
  unfold JIT.getJITFunctionByAddress.
  rewrite (upper_bound_chain JIT.imageBaseAddress idx k m a);
    [| unfold JIT.wf in Hw; apply andb_prop in Hw; tauto | exact Hk | lia].
  rewrite (upper_bound_chain JIT.baseAddress _ _ f a Hc Hf ltac:(lia)).
  rewrite uptr_small by lia.
  destruct (Z.leb_spec (JIT.baseAddress f) a); [|lia].
  destruct (Z.ltb_spec a (JIT.baseAddress f + JIT.numBytes f)); [reflexivity|lia].
Qed.

Lemma lookup_uncovered (idx : JIT.index) (a : Z) :
  JIT.wf idx = true ->
  (forall f, JIT.loaded idx f ->
     ~ (JIT.baseAddress f <= a < JIT.baseAddress f + JIT.numBytes f)) ->
  JIT.getJITFunctionByAddress idx a = None.
Proof.
  intros Hw Hnone. unfold JIT.getJITFunctionByAddress.
  destruct (JIT.upper_bound idx a) as [[k m]|] eqn:E1; [|reflexivity].
  destruct (JIT.upper_bound (JIT.addressToFunctionMap m) a) as [[k' f]|] eqn:E2;
    [|reflexivity].
  apply upper_bound_in in E1 as [Hk _]. apply upper_bound_in in E2 as [Hf _].
  destruct (wf_function_range _ _ _ _ _ Hw Hk Hf)
    as (-> & Hn & Hb & He & Hi & Hlt & Hc).
  rewrite uptr_small by lia.
  destruct (Z.leb_spec (JIT.baseAddress f) a),
           (Z.ltb_spec a (JIT.baseAddress f + JIT.numBytes f)); cbn; try reflexivity.
  exfalso. apply (Hnone f); [exists k, m, (JIT.baseAddress f + JIT.numBytes f); auto | lia].
Qed.

Lemma wf_modules (idx : JIT.index) :
  JIT.wf idx = true ->
  Forall (fun e => 0 < JIT.numImageBytes (snd e)) idx ->
  Forall (fun e => JIT.imageBaseAddress (snd e) < fst e) idx.
Proof.
  unfold JIT.wf. intros Hw Hp. apply andb_prop in Hw as [Hm _].
  rewrite forallb_forall in Hm. rewrite Forall_forall in Hp |- *.
  intros [k m] Hin. specialize (Hm _ Hin). specialize (Hp _ Hin). cbn in *.
  unfold JIT.module_ok in Hm. rewrite !andb_true_iff, Z.eqb_eq in Hm. lia.
Qed.

(** X10: loading a module ([addressToModuleMap.emplace] at the end of the
    [LoadedModule] constructor) into an index as the loader builds it, when
    every image is non-empty and the new image does not overlap any indexed
    image, adds exactly the new module's entry, keyed by its image end, and
    keeps the index well formed; afterwards every address inside a function
    of the new module or of a module already loaded resolves to that
    function. *)
Theorem loadModule_index (idx : JIT.index) (m : JIT.LoadedModule) :
  JIT.wf idx = true ->
  Forall (fun e => 0 < JIT.numImageBytes (snd e)) idx ->
  0 < JIT.numImageBytes m ->
  JIT.module_ok (JIT.imageBaseAddress m + JIT.numImageBytes m, m) = true ->
  (forall k' m', In (k', m') idx ->
     k' <= JIT.imageBaseAddress m
     \/ JIT.imageBaseAddress m + JIT.numImageBytes m <= JIT.imageBaseAddress m') ->
  let idx' := IDX.loadModule idx m in
  JIT.wf idx' = true
  /\ (forall e, In e idx' <-> e = (JIT.imageBaseAddress m + JIT.numImageBytes m, m) \/ In e idx)
  /\ (forall f a, (JIT.loaded idx f \/ exists k', In (k', f) (JIT.addressToFunctionMap m)) ->
        JIT.baseAddress f <= a < JIT.baseAddress f + JIT.numBytes f ->
        JIT.getJITFunctionByAddress idx' a = Some f).
Proof.
  intros Hw Hp Hn Hm Hd idx'.
  pose proof (wf_modules idx Hw Hp) as Hs.
  set (K := JIT.imageBaseAddress m + JIT.numImageBytes m) in *.
  assert (Habs : forall v', ~ In (K, v') idx).
  { intros v' Hin. rewrite Forall_forall in Hs. specialize (Hs _ Hin). cbn in Hs.
    destruct (Hd K v' Hin); unfold K in *; lia. }
  pose proof (emplace_absent idx K m Habs) as Hmem.
  assert (Hw' : JIT.wf idx' = true).
  { unfold JIT.wf in Hw |- *. apply andb_prop in Hw as [Hall Hc].
    apply andb_true_intro. split.
    - rewrite forallb_forall in Hall |- *. intros e He.
      destruct (proj1 (Hmem e) He) as [->|He']; [exact Hm | exact (Hall e He')].
    - apply emplace_chain; [exact Hc | exact Hs | unfold K; lia | exact Hd]. }
  split; [exact Hw'|]. split; [exact Hmem|].
  intros f a Hf Ha. apply lookup_loaded; [exact Hw' | | exact Ha].
  destruct Hf as [(k & m0 & k' & Hk & Hf) | (k' & Hf)].
  - exists k, m0, k'. split; [apply Hmem; right; exact Hk | exact Hf].
  - exists K, m, k'. split; [apply Hmem; left; reflexivity | exact Hf].
Qed.

(** X11: unloading a module ([addressToModuleMap.erase(find(...))] in the
    [LoadedModule] destructor) that is in an index as the loader builds it,
    with non-empty images, finds its entry and removes exactly that entry;
    the index stays well formed and no address of the unloaded image
    resolves to a function any more. *)
Theorem unloadModule_index (idx : JIT.index) (m : JIT.LoadedModule) :
  JIT.wf idx = true ->
  Forall (fun e => 0 < JIT.numImageBytes (snd e)) idx ->
  In (JIT.imageBaseAddress m + JIT.numImageBytes m, m) idx ->
  exists idx', IDX.unloadModule idx m = Some idx'
  /\ JIT.wf idx' = true
  /\ (forall e, In e idx' <-> In e idx /\ fst e <> JIT.imageBaseAddress m + JIT.numImageBytes m)
  /\ (forall a, JIT.imageBaseAddress m <= a < JIT.imageBaseAddress m + JIT.numImageBytes m ->
        JIT.getJITFunctionByAddress idx' a = None).
Proof.
  intros Hw Hp Hin.
  pose proof (wf_modules idx Hw Hp) as Hs.
  set (K := JIT.imageBaseAddress m + JIT.numImageBytes m) in *.
  unfold JIT.wf in Hw. apply andb_prop in Hw as [Hall Hc].
  pose proof (chain_nodup _ _ Hc Hs) as Hnd.
  destruct (erase_find_exists idx K m Hin) as [idx' He].
  exists idx'. unfold IDX.unloadModule. fold K. split; [exact He|].
  assert (Hw' : JIT.wf idx' = true).
  { unfold JIT.wf. apply andb_true_intro. split.
    - rewrite forallb_forall in Hall |- *. intros e Hi.
      exact (Hall e (erase_find_incl _ _ _ _ He Hi)).
    - exact (erase_find_chain _ _ _ _ He Hc). }
  split; [exact Hw'|]. split.
  - intros e. split.
    + intros Hi. split; [exact (erase_find_incl _ _ _ _ He Hi)|].
      exact (erase_find_removes _ _ _ _ Hnd He Hi).
    + intros [Hi Hne]. exact (erase_find_keeps _ _ _ _ He Hi Hne).
  - intros a Ha. apply lookup_uncovered; [exact Hw'|].
    intros f (k & m0 & k' & Hk & Hf) Hfa.
    pose proof (erase_find_removes _ _ _ _ Hnd He Hk) as Hne. cbn in Hne.
    apply (erase_find_incl _ _ _ _ He) in Hk.
    assert (Hw0 : JIT.wf idx = true) by (unfold JIT.wf; rewrite Hall, Hc; reflexivity).
    destruct (wf_function_range _ _ _ _ _ Hw0 Hk Hf)
      as (_ & Hn & Hb & Hfe & _ & _ & _).
    rewrite Forall_forall in Hs. pose proof (Hs _ Hin) as Hsm. cbn in Hsm.
    destruct (chain_pair _ _ _ _ _ _ Hc Hk Hin Hne); lia.
Qed.

(** X12: [emplace] never replaces an entry.  Loading a module whose image end
    equals the key of a module just loaded leaves the index unchanged (the
    new module is not indexed); unloading either module then removes the
    first module's entry and gives back the index as it was before both
    loads, after which unloading the other one finds no entry (the
    destructor's [erase(find(...))] then erases [end()]).  With the same
    module twice this is also the load/unload round trip. *)
Theorem loadModule_same_key (idx : JIT.index) (m1 m2 : JIT.LoadedModule) :
  JIT.imageBaseAddress m2 + JIT.numImageBytes m2
    = JIT.imageBaseAddress m1 + JIT.numImageBytes m1 ->
  (forall v, ~ In (JIT.imageBaseAddress m1 + JIT.numImageBytes m1, v) idx) ->
  let idx1 := IDX.loadModule idx m1 in
  IDX.loadModule idx1 m2 = idx1
  /\ IDX.unloadModule idx1 m1 = Some idx
  /\ IDX.unloadModule idx1 m2 = Some idx
  /\ IDX.unloadModule idx m1 = None
  /\ IDX.unloadModule idx m2 = None.
Proof.
  intros Hk Habs idx1. unfold idx1, IDX.loadModule, IDX.unloadModule. rewrite !Hk.
  split; [apply emplace_twice|].
  split; [apply erase_find_emplace; exact Habs|].
  split; [apply erase_find_emplace; exact Habs|].
  split; apply erase_find_absent; exact Habs.
Qed.

Lemma loadModule_index_witness :
  JIT.getJITFunctionByAddress
    (IDX.loadModule
       [(8192, {| JIT.imageBaseAddress := 4096; JIT.numImageBytes := 4096;
                  JIT.addressToFunctionMap :=
                    [(4112, {| JIT.baseAddress := 4096; JIT.numBytes := 16 |})] |})]
       {| JIT.imageBaseAddress := 8192; JIT.numImageBytes := 4096;
          JIT.addressToFunctionMap :=
            [(8240, {| JIT.baseAddress := 8192; JIT.numBytes := 48 |})] |})
    8200
  = Some {| JIT.baseAddress := 8192; JIT.numBytes := 48 |}.
Proof.
  refine (proj2 (proj2 (loadModule_index _ _ _ _ _ _ _)) _ _ _ _).
  - vm_compute. reflexivity.
  - repeat constructor; cbn; lia.
  - cbn. lia.
  - vm_compute. reflexivity.
  - intros k' m' [[= <- <-]|[]]. cbn. lia.
  - right. exists 8240. left. reflexivity.
  - cbn. lia.
Defined.

Lemma unloadModule_index_witness :
  IDX.unloadModule
    [(8192, {| JIT.imageBaseAddress := 4096; JIT.numImageBytes := 4096;
               JIT.addressToFunctionMap :=
                 [(4112, {| JIT.baseAddress := 4096; JIT.numBytes := 16 |})] |});
     (12288, {| JIT.imageBaseAddress := 8192; JIT.numImageBytes := 4096;
                JIT.addressToFunctionMap :=
                  [(8240, {| JIT.baseAddress := 8192; JIT.numBytes := 48 |})] |})]
    {| JIT.imageBaseAddress := 4096; JIT.numImageBytes := 4096;
       JIT.addressToFunctionMap :=
         [(4112, {| JIT.baseAddress := 4096; JIT.numBytes := 16 |})] |}
  = Some [(12288, {| JIT.imageBaseAddress := 8192; JIT.numImageBytes := 4096;
                     JIT.addressToFunctionMap :=
                       [(8240, {| JIT.baseAddress := 8192; JIT.numBytes := 48 |})] |})]
  /\ JIT.getJITFunctionByAddress
       [(12288, {| JIT.imageBaseAddress := 8192; JIT.numImageBytes := 4096;
                   JIT.addressToFunctionMap :=
                     [(8240, {| JIT.baseAddress := 8192; JIT.numBytes := 48 |})] |})]
       4100 = None.
Proof.
  destruct (unloadModule_index
              [(8192, {| JIT.imageBaseAddress := 4096; JIT.numImageBytes := 4096;
                         JIT.addressToFunctionMap :=
                           [(4112, {| JIT.baseAddress := 4096; JIT.numBytes := 16 |})] |});
               (12288, {| JIT.imageBaseAddress := 8192; JIT.numImageBytes := 4096;
                          JIT.addressToFunctionMap :=
                            [(8240, {| JIT.baseAddress := 8192; JIT.numBytes := 48 |})] |})]
              {| JIT.imageBaseAddress := 4096; JIT.numImageBytes := 4096;
                 JIT.addressToFunctionMap :=
                   [(4112, {| JIT.baseAddress := 4096; JIT.numBytes := 16 |})] |}
              ltac:(vm_compute; reflexivity)
              ltac:(repeat constructor; cbn; lia)
              ltac:(left; reflexivity))
    as (idx' & E & _ & _ & Hn).
  vm_compute in E. injection E as <-.
  split; [vm_compute; reflexivity|]. apply Hn. cbn. lia.
Defined.

Lemma loadModule_same_key_witness :
  IDX.unloadModule
    (IDX.loadModule []
       {| JIT.imageBaseAddress := 4096; JIT.numImageBytes := 4096;
          JIT.addressToFunctionMap := [] |})
    {| JIT.imageBaseAddress := 0; JIT.numImageBytes := 8192;
       JIT.addressToFunctionMap := [] |} = Some []
  /\ IDX.unloadModule []
       {| JIT.imageBaseAddress := 4096; JIT.numImageBytes := 4096;
          JIT.addressToFunctionMap := [] |} = None.
Proof.
  pose proof (loadModule_same_key []
                {| JIT.imageBaseAddress := 4096; JIT.numImageBytes := 4096;
                   JIT.addressToFunctionMap := [] |}
                {| JIT.imageBaseAddress := 0; JIT.numImageBytes := 8192;
                   JIT.addressToFunctionMap := [] |}
                eq_refl (fun v H => H)) as T.
  cbn zeta in T. destruct T as (_ & _ & T3 & T4 & _). split; assumption.
Defined.

(** ** C-string suffix test *)

Lemma strlen_cstr s : CLI.strlen s = String.length (CLI.cstr s).
Proof.
  induction s as [|c r IH]; cbn; [reflexivity|].
  destruct (Ascii.eqb c CLI.NUL); cbn; [reflexivity | rewrite IH; reflexivity].
Qed.

Lemma drop_cstr k s : (k <= CLI.strlen s)%nat -> CLI.cstr (CLI.drop k s) = CLI.drop k (CLI.cstr s).
Proof.
  revert k. induction s as [|c r IH]; intros k Hk; cbn in Hk |- *.
  - destruct k; reflexivity.
  - destruct (Ascii.eqb c CLI.NUL) eqn:Hc.
    + assert (k = 0%nat) as -> by lia. cbn. rewrite Hc. reflexivity.
    + destruct k as [|k]; cbn; [rewrite Hc; reflexivity|]. apply IH. lia.
Qed.

Lemma char0_cstr s : CLI.char_at (CLI.cstr s) 0 = CLI.char_at s 0.
Proof.
  destruct s as [|c r]; cbn; [reflexivity|].
  destruct (Ascii.eqb_spec c CLI.NUL) as [->|]; reflexivity.
Qed.

Lemma strncmp_cstr a b n : CLI.strncmp a b n = CLI.strncmp (CLI.cstr a) (CLI.cstr b) n.
Proof.
  revert a b. induction n as [|n IH]; intros a b; [reflexivity|].
  cbn [CLI.strncmp]. rewrite !char0_cstr.
  destruct (Ascii.eqb (CLI.char_at a 0) (CLI.char_at b 0)) eqn:Eab; cbn [negb];
    [|reflexivity].
  destruct (Ascii.eqb (CLI.char_at a 0) CLI.NUL) eqn:Ea; [reflexivity|].
  apply Ascii.eqb_eq in Eab.
  rewrite IH. f_equal.
  - destruct a as [|c r]; cbn in Ea |- *; [discriminate|]. rewrite Ea. reflexivity.
  - rewrite Eab in Ea.
    destruct b as [|c r]; cbn in Ea |- *; [discriminate|]. rewrite Ea. reflexivity.
Qed.

Lemma cstr_length_S x n :
  String.length (CLI.cstr x) = S n ->
  exists c r, c <> CLI.NUL /\ CLI.cstr x = String c (CLI.cstr r)
              /\ String.length (CLI.cstr r) = n.
Proof.
  destruct x as [|c r]; cbn; [discriminate|].
  destruct (Ascii.eqb_spec c CLI.NUL); cbn; [discriminate|].
  intros [= Hn]. exists c, r. auto.
Qed.

Lemma cstr_length_0 x : String.length (CLI.cstr x) = 0%nat -> CLI.cstr x = EmptyString.
Proof. destruct (CLI.cstr x); cbn; [reflexivity | discriminate]. Qed.

Lemma strncmp_eq x y n :
  String.length (CLI.cstr x) = n -> String.length (CLI.cstr y) = n ->
  CLI.strncmp (CLI.cstr x) (CLI.cstr y) n = 0 <-> CLI.cstr x = CLI.cstr y.
Proof.
  revert x y. induction n as [|n IH]; intros x y Hx Hy.
  - rewrite (cstr_length_0 x Hx), (cstr_length_0 y Hy). cbn. tauto.
  - destruct (cstr_length_S x n Hx) as (c & r & Hc & Ex & Hr).
    destruct (cstr_length_S y n Hy) as (d & q & Hd & Ey & Hq).
    rewrite Ex, Ey. cbn [CLI.strncmp CLI.char_at String.get].
    destruct (Ascii.eqb_spec c d) as [<-|Hcd]; cbn [negb].
    + apply Ascii.eqb_neq in Hc. rewrite Hc. cbn [CLI.drop].
      rewrite (IH r q Hr Hq). split; [intros ->; reflexivity | intros [= E]; exact E].
    + split; [|intros [= E _]; contradiction].
      intros E. exfalso. apply Hcd.
      rewrite <- (ascii_nat_embedding c), <- (ascii_nat_embedding d). f_equal. lia.
Qed.

Lemma string_length_app p u : String.length (p ++ u)%string = (String.length p + String.length u)%nat.
Proof. induction p as [|c p IH]; cbn; [reflexivity | rewrite IH; reflexivity]. Qed.

Lemma drop_app p u : CLI.drop (String.length p) (p ++ u)%string = u.
Proof. induction p as [|c p IH]; cbn; [destruct u; reflexivity | exact IH]. Qed.

Lemma drop_split k s : exists p, s = (p ++ CLI.drop k s)%string /\ (k <= String.length s -> String.length p = k)%nat.
Proof.
  revert k. induction s as [|c r IH]; intros k.
  - exists EmptyString. destruct k; cbn; split; [reflexivity | lia | reflexivity | lia].
  - destruct k as [|k].
    + exists EmptyString. split; reflexivity.
    + destruct (IH k) as (p & Ep & Lp). exists (String c p). cbn.
      split; [rewrite <- Ep; reflexivity | intros H; rewrite Lp by lia; reflexivity].
Qed.

Lemma length_drop k s : String.length (CLI.drop k s) = (String.length s - k)%nat.
Proof.
  revert k. induction s as [|c r IH]; intros k; destruct k; cbn; auto.
Qed.

(** X13: [endsWith(str, suffix)] is false when either pointer is null, and
    otherwise true exactly when the C string [str] (its characters before the
    first NUL) ends with the C string [suffix]. *)
Theorem endsWith_spec (str suffix : option string) :
  CLI.endsWith str suffix = true <->
  exists s suf p, str = Some s /\ suffix = Some suf
                  /\ CLI.cstr s = (p ++ CLI.cstr suf)%string.
Proof.
  destruct str as [s|], suffix as [suf|]; cbn [CLI.endsWith];
    [| split; [intros [=] | intros (? & ? & ? & ? & [=] & _)]
     | split; [intros [=] | intros (? & ? & ? & [=] & _)]
     | split; [intros [=] | intros (? & ? & ? & [=] & _)]].
  rewrite !strlen_cstr.
  set (T := CLI.cstr s). set (U := CLI.cstr suf).
  split.
  - destruct (Nat.ltb_spec (String.length T) (String.length U)); [intros [=]|].
    intros E. apply Z.eqb_eq in E. rewrite strncmp_cstr in E.
    assert (Hd : CLI.cstr (CLI.drop (String.length T - String.length U) s) = U).
    { apply (strncmp_eq _ suf (String.length U)); [| reflexivity | exact E].
      rewrite drop_cstr by (rewrite strlen_cstr; fold T; lia). fold T.
      rewrite length_drop. lia. }
    rewrite drop_cstr in Hd by (rewrite strlen_cstr; fold T; lia). fold T in Hd.
    destruct (drop_split (String.length T - String.length U) T) as (p & Ep & _).
    exists s, suf, p. split; [reflexivity|]. split; [reflexivity|].
    fold T U. rewrite Ep at 1. rewrite Hd. reflexivity.
  - intros (s' & suf' & p & [= <-] & [= <-] & E). fold T U in E.
    assert (HL : String.length T = (String.length p + String.length U)%nat)
      by (rewrite E; apply string_length_app).
    destruct (Nat.ltb_spec (String.length T) (String.length U)); [lia|].
    apply Z.eqb_eq.
    rewrite strncmp_cstr, drop_cstr by (rewrite strlen_cstr; fold T; lia). fold T U.
    replace (String.length T - String.length U)%nat with (String.length p) by lia.
    rewrite E, drop_app.
    unfold U. apply (proj2 (strncmp_eq suf suf _ eq_refl eq_refl)). reflexivity.
Qed.
